(** * The parallel executor of ploomber: [ploomber/executors/Parallel.py]

    A shallow embedding of [TaskBuildWrapper], of the closures [callback] and
    [next_task] of [Parallel.__call__], of the scheduling loop and of the
    aggregation of failures that follows it, with the properties of the
    scheduler proved over it.

    The coordinating process is sequential; what is concurrent is the moment
    at which the pool delivers a completion.  A run is therefore driven by a
    list of events: an iteration of the [while True] loop, the pool invoking
    [callback] on a finished future, or the task model (which is not part of
    this file) re-deriving the status of a task. *)

From stdpp Require Import base decidable option list strings gmap.

(** ** Data model *)

(** Modelled from the spec: the enumeration [ploomber.constants.TaskStatus]
    is not part of the file; these are the six members the executor names.
    [OtherStatus] stands for any further member of the enumeration, which the
    executor never compares with. *)
Inductive TaskStatus : Type :=
| WaitingExecution
| Executed
| Skipped
| Aborted
| Errored
| BrokenProcessPool
| OtherStatus (tag : nat).

#[global] Instance TaskStatus_eq_dec : EqDecision TaskStatus.
Proof. solve_decision. Defined.

(** A task as the executor sees it: [task.name] and [task.exec_status].
    Tasks are shared objects; [done], [started] and [future_mapping] refer to
    them by name, the key under which the DAG holds them. *)
Record Task : Type := mkTask {
  name : string;
  exec_status : TaskStatus
}.

#[global] Instance Task_eq_dec : EqDecision Task.
Proof. solve_decision. Defined.

(** [dag.values()], in the order of the DAG. *)
Abbreviation DAG := (list Task).

(** [list(dag)]: the names, the keys of the DAG. *)
Definition names (dag : DAG) : list string := name <$> dag.

(** [dag[n].exec_status] *)
Fixpoint status_of (n : string) (dag : DAG) : option TaskStatus :=
  match dag with
  | [] => None
  | t :: ts => if decide (name t = n) then Some (exec_status t)
               else status_of n ts
  end.

(** [dag[n].exec_status = s]: an attribute write on the task object. *)
Fixpoint set_exec_status (n : string) (s : TaskStatus) (dag : DAG) : DAG :=
  match dag with
  | [] => []
  | t :: ts =>
      (if decide (name t = n) then mkTask (name t) s else t)
        :: set_exec_status n s ts
  end.

(** Exceptions: what [except Exception] and [except BrokenProcessPool] tell
    apart.  [BrokenProcessPool] derives from [Exception]; [SystemExit],
    [KeyboardInterrupt] and [GeneratorExit] derive from [BaseException]
    only. *)
Inductive ExcClass : Type :=
| BrokenProcessPoolError
| OtherException
| BaseExceptionOnly.

Record PyExc : Type := mkExc {
  exc_class : ExcClass;
  exc_msg : string
}.

Definition isinstance_Exception (e : PyExc) : bool :=
  match exc_class e with
  | BaseExceptionOnly => false
  | _ => true
  end.

Definition isinstance_BrokenProcessPool (e : PyExc) : bool :=
  match exc_class e with
  | BrokenProcessPoolError => true
  | _ => false
  end.

(** The outcome of a call: a value, or an exception that leaves the call. *)
Inductive Completion (A : Type) : Type :=
| Returns (a : A)
| Raises (e : PyExc).
Arguments Returns {A} a.
Arguments Raises {A} e.

(** Modelled from the spec: [ploomber.ExceptionCollector.ExceptionResult] is
    not part of the file; it carries the rendered identity of the task and
    the rendered stack trace. *)
Record ExceptionResult : Type := mkExceptionResult {
  task_str : string;
  traceback_str : string
}.

(** What a worker hands back: a status, or an [ExceptionResult]. *)
Inductive BuildValue : Type :=
| StatusValue (s : TaskStatus)
| ExcValue (r : ExceptionResult).

Definition isinstance_ExceptionResult (v : BuildValue) : bool :=
  match v with
  | ExcValue _ => true
  | StatusValue _ => false
  end.

(** Futures are fresh objects; the pool numbers them in submission order. *)
Abbreviation Future := nat.

(** The two places where [next_task] raises [StopIteration].  The loop does
    not tell them apart ([except StopIteration: break]); the tag only records
    which [raise] was reached. *)
Inductive StopSite : Type :=
| BrokenPoolSeen
| AllDone.

Inductive NextTask : Type :=
| ReturnTask (t : string)
| ReturnNone
| StopIteration (site : StopSite).

(** The local variables of [Parallel.__call__] together with the statuses of
    the tasks of the DAG. *)
Record State : Type := mkState {
  dag : DAG;
  done : list string;
  started : list string;
  future_mapping : list (Future * string);
  delivered : list Future;
  counter : nat;
  exited : option StopSite
}.

(** [set([t.name for t in done])] and [set(dag)] *)
Definition set_done (dn : list string) : gset string := list_to_set dn.
Definition set_all (d : DAG) : gset string := list_to_set (names d).

Definition with_dag (d : DAG) (σ : State) : State :=
  mkState d (done σ) (started σ) (future_mapping σ) (delivered σ)
          (counter σ) (exited σ).
Definition with_done (dn : list string) (σ : State) : State :=
  mkState (dag σ) dn (started σ) (future_mapping σ) (delivered σ)
          (counter σ) (exited σ).
Definition with_counter (i : nat) (σ : State) : State :=
  mkState (dag σ) (done σ) (started σ) (future_mapping σ) (delivered σ)
          i (exited σ).
Definition with_exited (x : option StopSite) (σ : State) : State :=
  mkState (dag σ) (done σ) (started σ) (future_mapping σ) (delivered σ)
          (counter σ) x.
Definition with_delivered (dl : list Future) (σ : State) : State :=
  mkState (dag σ) (done σ) (started σ) (future_mapping σ) dl
          (counter σ) (exited σ).

(** [future_mapping[f]] *)
Fixpoint lookup_future (f : Future) (fm : list (Future * string))
  : option string :=
  match fm with
  | [] => None
  | (g, t) :: rest => if decide (g = f) then Some t else lookup_future f rest
  end.

(** Modelled from the spec: [ploomber.ExceptionCollector.ExceptionCollector]
    is not part of the file; it holds the failures in order and is truthy
    exactly when it holds at least one. *)
Abbreviation ExceptionCollector := (list ExceptionResult).

Definition collector_bool (exps : ExceptionCollector) : bool :=
  match exps with
  | [] => false
  | _ :: _ => true
  end.

(** How a run of [Parallel.__call__] ends.  [DAGBuildError] carries the
    collector its message is rendered from. *)
Inductive RunResult : Type :=
| ReturnsNone
| RaisesDAGBuildError (exps : ExceptionCollector)
| RaisesOther (e : PyExc).

(** What happens while the loop runs. *)
Inductive Event : Type :=
| Poll                                    (* one iteration of [while True] *)
| Complete (f : Future)                   (* the pool calls [callback(f)] *)
| Derived (n : string) (s : TaskStatus).  (* the task model updates a status *)

#[global] Instance Event_eq_dec : EqDecision Event.
Proof. solve_decision. Defined.

Definition scheduler_event (e : Event) : bool :=
  match e with
  | Derived _ _ => false
  | _ => true
  end.

(** ** The executor object and its pickling *)

(** The values of the attributes of a [Parallel] object. *)
Inductive PyValue : Type :=
| PyNone
| PyInt (z : Z)
| PyStr (s : string)
| PyLogger (logger_name : string).

#[global] Instance PyValue_eq_dec : EqDecision PyValue.
Proof. solve_decision. Defined.

(** [__name__] of the module, [logging.getLogger] and [logging.INFO]. *)
Definition module_name : string := "ploomber.executors.Parallel".
Definition getLogger (n : string) : PyValue := PyLogger n.
Definition INFO : PyValue := PyInt 20.

(** [Parallel.__init__]: the [__dict__] of the object once the five
    attributes are assigned. *)
Definition Parallel_init (processes logging_directory logging_level : PyValue)
  : gmap string PyValue :=
  <["_i" := PyInt 0]>
    (<["_logger" := getLogger module_name]>
       (<["processes" := processes]>
          (<["logging_level" := logging_level]>
             (<["logging_directory" := logging_directory]> ∅)))).

(** [Parallel()]: the defaults of the signature. *)
Definition Parallel_default : gmap string PyValue :=
  Parallel_init (PyInt 4) PyNone INFO.

(** [Parallel.__getstate__]: a copy of [__dict__] from which ['_logger'] is
    deleted; [del] raises [KeyError] when the key is missing. *)
Definition getstate (self : gmap string PyValue)
  : Completion (gmap string PyValue) :=
  match self !! "_logger" with
  | Some _ => Returns (delete "_logger" self)
  | None => Raises (mkExc OtherException "KeyError")
  end.

(** [Parallel.__setstate__]: [__dict__.update(state)], then the logger of
    the module. *)
Definition setstate (self state : gmap string PyValue)
  : gmap string PyValue :=
  <["_logger" := getLogger module_name]> (state ∪ self).

(** What [pickle.loads(pickle.dumps(self))] does with the two methods:
    the state is taken from [self] and given to a new object whose
    [__dict__] is empty. *)
Definition pickle_round_trip (self : gmap string PyValue)
  : Completion (gmap string PyValue) :=
  match getstate self with
  | Returns state => Returns (setstate ∅ state)
  | Raises e => Raises e
  end.

(** ** Scenarios *)

Module Scenario.

(** ["a"] is in flight, ["b"] is aborted. *)
Definition in_flight_and_aborted : State :=
  mkState [mkTask "a" WaitingExecution; mkTask "b" Aborted]
          [] ["a"] [(0, "a")] [] 0 None.

(** Builds: ["ok"] succeeds, ["boom"] raises a [ValueError], ["exit"] calls
    [sys.exit]. *)
Definition build (t : string) (kw : unit) : Completion TaskStatus :=
  if decide (t = "boom") then Raises (mkExc OtherException "ValueError")
  else if decide (t = "exit") then Raises (mkExc BaseExceptionOnly "SystemExit")
  else Returns Executed.

Definition repr (t : string) : string := "Task(" +:+ t +:+ ")".
Definition str (t : string) : string := t.
Definition format_exc (e : PyExc) : string :=
  "Traceback (most recent call last): " +:+ exc_msg e.

(** A pool that never collapses, and one that collapses at once. *)
Definition healthy (f : Future) : bool := false.
Definition collapsed (f : Future) : bool := true.

Definition one_task : DAG := [mkTask "ok" WaitingExecution].
Definition two_tasks : DAG :=
  [mkTask "ok" WaitingExecution; mkTask "boom" WaitingExecution].
Definition three_tasks : DAG :=
  [mkTask "ok" WaitingExecution; mkTask "b" Aborted;
   mkTask "c" WaitingExecution].


End Scenario.

(** A task and a dependent of it, which waits for the task model to make it
    ready; a DAG whose first task fails; a pool that collapses under its
    second future; an object that has been used. *)
Module Pipeline.

Definition chain : DAG :=
  [mkTask "ok" WaitingExecution; mkTask "dep" (OtherStatus 0)].

Definition chain_events : list Event :=
  [Poll; Complete 0; Derived "dep" WaitingExecution; Poll; Poll;
   Complete 1; Poll].

Definition fails_first : DAG :=
  [mkTask "boom" WaitingExecution; mkTask "ok" WaitingExecution].

Definition breaks_second (f : Future) : bool := bool_decide (f = 1).

Definition exits : DAG := [mkTask "exit" WaitingExecution].

Definition used : gmap string PyValue :=
  <["_i" := PyInt 2000]> (Parallel_init (PyInt 2) (PyStr "logs") INFO).

End Pipeline.

(** ** The executor *)

Section Executor.

(** What the executor receives from outside: the run's keyword arguments,
    [task.build], [repr(task)], [str(task)], [traceback.format_exc()] and
    whether the pool has collapsed by the time a future gets its result. *)
Context {Kwargs : Type}.
Variable build : string -> Kwargs -> Completion TaskStatus.
Variable repr : string -> string.
Variable str : string -> string.
Variable format_exc : PyExc -> string.
Variable pool_broken : Future -> bool.
Variable kwargs : Kwargs.

(** [super().__call__(dag)], the first statement of [Parallel.__call__].
    The base class [ploomber.executors.Executor] is not part of the file, so
    its call is taken as given: for a DAG it returns or it raises. *)
Variable Executor_call : DAG -> Completion unit.

(** [TaskBuildWrapper]: the callable handed to the pool. *)
Record TaskBuildWrapper : Type := mkWrapper { task : string }.

(** [TaskBuildWrapper.__call__] *)
Definition TaskBuildWrapper_call (self : TaskBuildWrapper) (kw : Kwargs)
  : Completion BuildValue :=
  match build (task self) kw with
  | Returns s => Returns (StatusValue s)
  | Raises e =>
      if isinstance_Exception e
      then Returns (ExcValue
                      (mkExceptionResult (repr (task self)) (format_exc e)))
      else Raises e
  end.

(** [future.result()] for the future [f] that [pool.submit] returned for
    [TaskBuildWrapper(t)]: the fault of a collapsed pool, or else what the
    call in the worker did.  The callable and its result are taken to
    pickle: the pool raises nothing else. *)
Definition future_result (f : Future) (t : string) : Completion BuildValue :=
  if pool_broken f
  then Raises (mkExc BrokenProcessPoolError "A process in the process pool was terminated abruptly")
  else TaskBuildWrapper_call (mkWrapper t) kwargs.

(** [callback(future)] *)
Definition callback (f : Future) (σ : State) : State * Completion unit :=
  match lookup_future f (future_mapping σ) with
  | None => (σ, Raises (mkExc OtherException "KeyError"))
  | Some t =>
      match future_result f t with
      | Raises e =>
          if isinstance_BrokenProcessPool e
          then (with_done (done σ ++ [t])
                  (with_dag (set_exec_status t BrokenProcessPool (dag σ)) σ),
                Returns ())
          else (σ, Raises e)
      | Returns result =>
          let s := match result with
                   | ExcValue _ => Errored
                   | StatusValue s => s
                   end in
          (with_done (done σ ++ [t])
             (with_dag (set_exec_status t s (dag σ)) σ),
           Returns ())
      end
  end.

(** The first loop of [next_task]: every [Aborted] task met is appended to
    [done]; the scan stops at the first [BrokenProcessPool] task, where
    [StopIteration] is raised ([true]). *)
Fixpoint scan_aborted (tasks : list Task) (dn : list string)
  : list string * bool :=
  match tasks with
  | [] => (dn, false)
  | t :: ts =>
      match exec_status t with
      | Aborted => scan_aborted ts (dn ++ [name t])
      | BrokenProcessPool => (dn, true)
      | _ => scan_aborted ts dn
      end
  end.

(** The condition of the second loop of [next_task]. *)
Definition ready (st : list string) (t : Task) : bool :=
  bool_decide (exec_status t = WaitingExecution)
  && bool_decide (name t ∉ st).

(** The second loop of [next_task]. *)
Fixpoint first_ready (tasks : list Task) (st : list string) : option Task :=
  match tasks with
  | [] => None
  | t :: ts => if ready st t then Some t else first_ready ts st
  end.

(** [next_task()]; the logging calls are left out. *)
Definition next_task (σ : State) : State * NextTask :=
  let '(dn, broken) := scan_aborted (dag σ) (done σ) in
  let σ1 := with_done dn σ in
  if broken then (σ1, StopIteration BrokenPoolSeen)
  else
    match first_ready (dag σ1) (started σ1) with
    | Some t => (σ1, ReturnTask (name t))
    | None =>
        if bool_decide (set_done (done σ1) = set_all (dag σ1))
        then (σ1, StopIteration AllDone)
        else (with_counter (S (counter σ1)) σ1, ReturnNone)
    end.

(** The [else] branch of the loop for a task: submit, register the
    callback, record the task.  The branch is one step: no callback runs
    between [add_done_callback] and the assignment to [future_mapping]. *)
Definition dispatch (t : string) (σ : State) : State :=
  let f : Future := length (future_mapping σ) in
  mkState (dag σ) (done σ) (started σ ++ [t])
          (future_mapping σ ++ [(f, t)]) (delivered σ)
          (counter σ) (exited σ).

(** One iteration of [while True]; nothing once the loop has been left.
    The iteration is one step: no callback runs while [next_task] is
    evaluated, between its first loop and its completion test. *)
Definition poll (σ : State) : State :=
  match exited σ with
  | Some _ => σ
  | None =>
      match next_task σ with
      | (σ1, StopIteration site) => with_exited (Some site) σ1
      | (σ1, ReturnNone) => σ1
      | (σ1, ReturnTask t) => dispatch t σ1
      end
  end.

(** The pool runs the callback of a future once, when the future is done.
    An exception that leaves the callback is logged by the future and
    does not reach the loop. *)
Definition deliver (f : Future) (σ : State) : State :=
  match lookup_future f (future_mapping σ) with
  | None => σ
  | Some _ =>
      if bool_decide (f ∈ delivered σ) then σ
      else with_delivered (delivered σ ++ [f]) (fst (callback f σ))
  end.

Definition exec (e : Event) (σ : State) : State :=
  match e with
  | Poll => poll σ
  | Complete f => deliver f σ
  | Derived n s => with_dag (set_exec_status n s (dag σ)) σ
  end.

Definition run_events (evs : list Event) (σ : State) : State :=
  foldl (fun σ e => exec e σ) σ evs.

(** The state before the loop, from [done = []] on, of the first call on
    an executor ([self._i] is [0]): the [Executed] and [Skipped] tasks are
    appended to [done]. *)
Definition up_to_date (t : Task) : bool :=
  match exec_status t with
  | Executed | Skipped => true
  | _ => false
  end.

Definition init (d : DAG) : State :=
  mkState d (name <$> filter (fun t => up_to_date t = true) d) [] [] [] 0 None.

(** Leaving the [with] block shuts the pool down and waits: every future
    still outstanding completes and its callback runs. *)
Definition shutdown (σ : State) : State :=
  foldl (fun σ ft => deliver (fst ft) σ) σ (future_mapping σ).

(** [get_future_result(future, future_mapping)], for a future of the
    mapping: the aggregation only calls it on the keys of
    [future_mapping]. *)
Definition get_future_result (f : Future) (fm : list (Future * string))
  : Completion BuildValue :=
  match lookup_future f fm with
  | None => Raises (mkExc OtherException "KeyError")
  | Some t =>
      match future_result f t with
      | Returns v => Returns v
      | Raises e =>
          if isinstance_BrokenProcessPool e
          then Raises (mkExc BrokenProcessPoolError ("Broken pool " +:+ str t))
          else Raises e
      end
  end.

(** The list comprehension after the loop, over [items], the not yet
    visited part of [future_mapping.items()]. *)
Fixpoint collect (items fm : list (Future * string))
  : Completion (list ExceptionResult) :=
  match items with
  | [] => Returns []
  | (f, _) :: rest =>
      match get_future_result f fm with
      | Raises e => Raises e
      | Returns v =>
          if isinstance_ExceptionResult v then
            match get_future_result f fm with
            | Raises e => Raises e
            | Returns (StatusValue _) => collect rest fm
            | Returns (ExcValue r) =>
                match collect rest fm with
                | Raises e => Raises e
                | Returns l => Returns (r :: l)
                end
            end
          else collect rest fm
      end
  end.

(** The end of [Parallel.__call__], after the [with] block. *)
Definition aggregate (σ : State) : RunResult :=
  match collect (future_mapping σ) (future_mapping σ) with
  | Raises e => RaisesOther e
  | Returns exps =>
      if collector_bool exps then RaisesDAGBuildError exps else ReturnsNone
  end.

(** [Parallel.__call__(dag, **kwargs)] along the events [evs], once
    [super().__call__(dag)] has returned: the final state and how the call
    ends, or [None] when the loop is still running at the end of [evs]. *)
Definition Parallel_call (d : DAG) (evs : list Event)
  : option (State * RunResult) :=
  let σ := run_events evs (init d) in
  match exited σ with
  | None => None
  | Some _ => let σ' := shutdown σ in Some (σ', aggregate σ')
  end.




(** ** Statements about [next_task] *)

Definition is_ready (st : list string) (t : Task) : Prop :=
  exec_status t = WaitingExecution ∧ name t ∉ st.

(** [t] is the first task of [d], in the order of the DAG, that waits for
    execution and has not been started. *)
Definition first_ready_task (st : list string) (d : DAG) (t : Task) : Prop :=
  ∃ before after,
    d = before ++ t :: after ∧ is_ready st t ∧
    ∀ u, u ∈ before → ¬ is_ready st u.

Definition none_ready (st : list string) (d : DAG) : Prop :=
  ∀ u, u ∈ d → ¬ is_ready st u.

Definition no_broken_pool (d : DAG) : Prop :=
  Forall (fun t => exec_status t ≠ BrokenProcessPool) d.

Definition some_broken_pool (d : DAG) : Prop :=
  Exists (fun t => exec_status t = BrokenProcessPool) d.

#[global] Instance no_broken_pool_dec d : Decision (no_broken_pool d).
Proof. unfold no_broken_pool. apply _. Defined.

#[global] Instance some_broken_pool_dec d : Decision (some_broken_pool d).
Proof. unfold some_broken_pool. apply _. Defined.

(** The names of the [Aborted] tasks, in the order of the DAG. *)
Definition aborted_names (d : DAG) : list string :=
  name <$> filter (fun t => exec_status t = Aborted) d.

(** The tasks that come before the first [BrokenProcessPool] task. *)
Fixpoint before_broken (d : DAG) : DAG :=
  match d with
  | [] => []
  | t :: ts =>
      if decide (exec_status t = BrokenProcessPool) then []
      else t :: before_broken ts
  end.

(** The selection as the specification words it: the first ready task is
    returned; when there is none, the end of scheduling is signalled exactly
    when the names in [done] (as [next_task] compares them, the [Aborted]
    tasks of this call included) are the names of all tasks, and [None] is
    returned otherwise. *)
Definition selects_first_ready (σ : State) : Prop :=
  (∀ t, first_ready_task (started σ) (dag σ) t →
        (next_task σ).2 = ReturnTask (name t)) ∧
  (none_ready (started σ) (dag σ) →
     (set_done (done (next_task σ).1) = set_all (dag σ) →
        (next_task σ).2 = StopIteration AllDone) ∧
     (set_done (done (next_task σ).1) ≠ set_all (dag σ) →
        (next_task σ).2 = ReturnNone)).

(** Every call appends all [Aborted] tasks to [done]. *)
Definition appends_every_aborted (σ : State) : Prop :=
  done (next_task σ).1 = done σ ++ aborted_names (dag σ).

(** [k] calls of [next_task] in a row. *)
Definition next_task_times (k : nat) (σ : State) : State :=
  Nat.iter k (fun σ => (next_task σ).1) σ.

(** ** Statements about the wrapper and about the end of a run *)

(** The wrapper as the specification words it: the status when the build
    succeeds, an [ExceptionResult] with the identity of the task and the
    rendered trace on any exception. *)
Definition captures_every_exception (self : TaskBuildWrapper) (kw : Kwargs)
  : Prop :=
  match build (task self) kw with
  | Returns s =>
      TaskBuildWrapper_call self kw
      = Returns (StatusValue s)
  | Raises e =>
      TaskBuildWrapper_call self kw
      = Returns (ExcValue (mkExceptionResult (repr (task self)) (format_exc e)))
  end.

(** The result of the future of an entry of [future_mapping] is a value. *)
Definition result_returns (ft : Future * string) : Prop :=
  ∃ v, future_result ft.1 ft.2
       = Returns v.

(** The result of the future of an entry is an [ExceptionResult]. *)
Definition result_failed (ft : Future * string) : Prop :=
  ∃ r, future_result ft.1 ft.2
       = Returns (ExcValue r).

(** Asking the future of an entry for its result raises. *)
Definition result_raises (ft : Future * string) : Prop :=
  ∃ e, future_result ft.1 ft.2
       = Raises e.

(** The [ExceptionResult]s among the results, in the order of the entries. *)
Definition failures (fm : list (Future * string)) : list ExceptionResult :=
  omap (fun ft =>
          match future_result ft.1 ft.2 with
          | Returns (ExcValue r) => Some r
          | _ => None
          end) fm.

(** A task of the DAG ended [Errored] or [BrokenProcessPool]. *)
Definition some_failed (d : DAG) : Prop :=
  Exists (fun t => exec_status t = Errored
                   ∨ exec_status t = BrokenProcessPool) d.

#[global] Instance some_failed_dec d : Decision (some_failed d).
Proof. unfold some_failed. apply _. Defined.

(** The end of a run as the specification words it: the aggregate error is
    raised exactly when some task is [Errored] or [BrokenProcessPool]. *)
Definition aggregate_error_iff_failed (run : option (State * RunResult))
  : Prop :=
  ∀ σ r, run = Some (σ, r) →
         ((∃ exps, r = RaisesDAGBuildError exps) ↔ some_failed (dag σ)).

(** An event by which the task model, not the executor, marks a task
    [BrokenProcessPool]. *)
Definition derives_broken (e : Event) : bool :=
  match e with
  | Derived _ BrokenProcessPool => true
  | _ => false
  end.

(** Every [BrokenProcessPool] status was set by the callback of a future of
    the collapsed pool, and if the loop was left because such a status was
    seen, some submitted future is one of the collapsed pool. *)
Definition broken_accounted (σ : State) : Prop :=
  (∀ t, t ∈ dag σ → exec_status t = BrokenProcessPool →
        ∃ f, (f, name t) ∈ future_mapping σ ∧ pool_broken f = true) ∧
  (exited σ = Some BrokenPoolSeen →
   Exists (λ ft, pool_broken ft.1 = true) (future_mapping σ)).

(** The bookkeeping of submissions: the tasks of [future_mapping] are the
    tasks of [started], in order, and the futures are numbered from 0. *)
Definition submissions_recorded (σ : State) : Prop :=
  (future_mapping σ).*2 = started σ ∧
  (future_mapping σ).*1 = seq 0 (length (future_mapping σ)).

(** ** Statements about whole runs *)

(** What the task model may do while the executor runs: it derives the
    status of tasks that have not been started, and leaves the status of a
    task that is in [done] as it is. *)
Definition env_ok (e : Event) (σ : State) : bool :=
  match e with
  | Derived n s =>
      bool_decide (n ∉ started σ)
      && (bool_decide (n ∉ done σ)
          || bool_decide (status_of n (dag σ) = Some s))
  | _ => true
  end.

Fixpoint well_behaved (evs : list Event) (σ : State) : bool :=
  match evs with
  | [] => true
  | e :: evs' => env_ok e σ && well_behaved evs' (exec e σ)
  end.

(** The status that [callback] writes for the future [f] of the task [t];
    [None] when the callback is left by an exception before it writes. *)
Definition outcome_status (f : Future) (t : string) : option TaskStatus :=
  match future_result f t with
  | Returns (StatusValue s) => Some s
  | Returns (ExcValue _) => Some Errored
  | Raises e =>
      if isinstance_BrokenProcessPool e then Some BrokenProcessPool else None
  end.

(** The state of a submitted task: it waits, outside [done], until the
    callback of its future has run and written; from then on it is in
    [done] with the status of the outcome. *)
Definition settled (σ : State) (f : Future) (n : string) : Prop :=
  match (if bool_decide (f ∈ delivered σ) then outcome_status f n else None)
  with
  | Some s => status_of n (dag σ) = Some s ∧ n ∈ done σ
  | None => status_of n (dag σ) = Some WaitingExecution ∧ n ∉ done σ
  end.

(** A status in which a task that was never started is put in [done]. *)
Definition finished_unstarted (s : TaskStatus) : bool :=
  match s with
  | Executed | Skipped | Aborted => true
  | _ => false
  end.

(** [done] and [started] hold names of the DAG. *)
Definition bookkeeping_in_dag (σ : State) : Prop :=
  (∀ n, n ∈ done σ → n ∈ names (dag σ)) ∧
  (∀ n, n ∈ started σ → n ∈ names (dag σ)).

(** The futures whose callback has run are submitted futures. *)
Definition delivered_submitted (σ : State) : Prop :=
  ∀ f, f ∈ delivered σ → f < length (future_mapping σ).

(** A task that is in [done] without having been started is [Executed],
    [Skipped] or [Aborted]. *)
Definition unstarted_done (σ : State) : Prop :=
  ∀ n, n ∈ done σ → n ∉ started σ →
       ∃ s, status_of n (dag σ) = Some s ∧ finished_unstarted s = true.

(** The invariant of the loop under a well-behaved task model. *)
Definition coherent (σ : State) : Prop :=
  NoDup (names (dag σ)) ∧ submissions_recorded σ ∧ NoDup (started σ) ∧
  bookkeeping_in_dag σ ∧ delivered_submitted σ ∧ unstarted_done σ ∧
  (∀ f n, (f, n) ∈ future_mapping σ → settled σ f n) ∧
  (exited σ = Some AllDone →
   (∀ n, n ∈ names (dag σ) → n ∈ done σ) ∧
   ∀ f n, (f, n) ∈ future_mapping σ →
          f ∈ delivered σ ∧ ∃ v, future_result f n = Returns v).

#[global] Instance StopSite_eq_dec : EqDecision StopSite.
Proof. solve_decision. Defined.

(** The calls made on [logger_handler]. *)
Inductive HandlerCall : Type :=
| HandlerAdd
| HandlerRemove.

(** [if self.logging_directory:], for [None] or a string. *)
Definition truthy (logging_directory : option string) : bool :=
  match logging_directory with
  | Some s => negb (String.eqb s "")
  | None => false
  end.

(** The call made to [logger_handler] before the loop. *)
Definition handler_setup (logging_directory : option string)
  : list HandlerCall :=
  if truthy logging_directory then [HandlerAdd] else [].

(** The call made to [logger_handler] by a call of [next_task]: [remove],
    at the all-done site. *)
Definition handler_next_task (logging_directory : option string)
    (r : NextTask) : list HandlerCall :=
  match r with
  | StopIteration AllDone =>
      if truthy logging_directory then [HandlerRemove] else []
  | _ => []
  end.

(** The calls made to [logger_handler] by [__call__] along the events. *)
Fixpoint handler_events (logging_directory : option string)
    (evs : list Event) (σ : State) : list HandlerCall :=
  match evs with
  | [] => []
  | e :: evs' =>
      match e, exited σ with
      | Poll, None => handler_next_task logging_directory (next_task σ).2
      | _, _ => []
      end ++ handler_events logging_directory evs' (exec e σ)
  end.

Definition handler_calls (logging_directory : option string)
    (d : DAG) (evs : list Event) : list HandlerCall :=
  handler_setup logging_directory
  ++ handler_events logging_directory evs (init d).


(** ** Properties *)

(** *** Reading and writing statuses *)

Lemma names_set_exec_status n s d : names (set_exec_status n s d) = names d.
Proof.
  unfold names. induction d as [|t ts IH]; [done|].
  cbn [set_exec_status]. rewrite !fmap_cons, IH. by case_decide.
Qed.

Lemma status_of_set_eq n s d :
  n ∈ names d → status_of n (set_exec_status n s d) = Some s.
Proof.
  unfold names. induction d as [|t ts IH]; simpl.
  - by intros ?%elem_of_nil.
  - intros Hin. destruct (decide (name t = n)) as [->|Hne]; simpl.
    + by rewrite decide_True.
    + rewrite decide_False by done. apply IH.
      apply elem_of_cons in Hin as [?|?]; [congruence|done].
Qed.

Lemma status_of_set_ne n m s d :
  n ≠ m → status_of m (set_exec_status n s d) = status_of m d.
Proof.
  intros Hne. induction d as [|t ts IH]; simpl; [done|].
  destruct (decide (name t = n)) as [Heq|?]; simpl.
  - rewrite !decide_False by congruence. done.
  - by rewrite IH.
Qed.

Lemma status_of_NoDup t d :
  NoDup (names d) → t ∈ d → status_of (name t) d = Some (exec_status t).
Proof.
  unfold names. induction d as [|u us IH]; simpl.
  - by intros _ ?%elem_of_nil.
  - intros [Hnotin Hnd]%NoDup_cons [->|Hin]%elem_of_cons.
    + by rewrite decide_True.
    + rewrite decide_False; [by apply IH|].
      intros Heq. apply Hnotin. rewrite Heq. by apply list_elem_of_fmap_2.
Qed.

(** *** The two scans of [next_task] *)

Lemma before_broken_id d : no_broken_pool d → before_broken d = d.
Proof.
  induction 1 as [|t ts Ht _ IH]; simpl; [done|].
  by rewrite decide_False, IH.
Qed.

Lemma scan_aborted_done d dn :
  (scan_aborted d dn).1 = dn ++ aborted_names (before_broken d).
Proof.
  unfold aborted_names. revert dn.
  induction d as [|t ts IH]; intros dn.
  - simpl. by rewrite app_nil_r.
  - cbn [scan_aborted before_broken].
    destruct (decide (exec_status t = BrokenProcessPool)) as [Hb|Hnb].
    { rewrite Hb. simpl. by rewrite app_nil_r. }
    destruct (decide (exec_status t = Aborted)) as [Ha|Hna].
    { rewrite Ha, IH, filter_cons_True by done.
      by rewrite fmap_cons, <-app_assoc. }
    rewrite filter_cons_False by done. rewrite <-IH.
    by destruct (exec_status t).
Qed.

Lemma scan_aborted_flag d dn :
  (scan_aborted d dn).2 = true ↔ some_broken_pool d.
Proof.
  unfold some_broken_pool. revert dn.
  induction d as [|t ts IH]; intros dn; cbn [scan_aborted].
  - rewrite Exists_nil. done.
  - rewrite Exists_cons.
    destruct (decide (exec_status t = BrokenProcessPool)) as [Hb|Hnb].
    { rewrite Hb. simpl. split; [by left|done]. }
    transitivity ((scan_aborted ts
                     (if decide (exec_status t = Aborted)
                      then dn ++ [name t] else dn)).2 = true).
    { by destruct (exec_status t). }
    rewrite IH. split; [by right|]. by intros [?|?].
Qed.

Lemma no_broken_not_some d : no_broken_pool d → ¬ some_broken_pool d.
Proof.
  unfold no_broken_pool, some_broken_pool.
  rewrite Forall_forall, Exists_exists. intros Hnb (t & Ht & Hs).
  by apply (Hnb t).
Qed.

Lemma scan_aborted_no_broken d dn :
  no_broken_pool d → scan_aborted d dn = (dn ++ aborted_names d, false).
Proof.
  intros Hnb. destruct (scan_aborted d dn) as [dn' b] eqn:Hscan.
  pose proof (scan_aborted_done d dn) as Hd.
  pose proof (scan_aborted_flag d dn) as Hf.
  rewrite Hscan in Hd, Hf. simpl in *.
  rewrite before_broken_id in Hd by done. subst dn'. f_equal.
  destruct b; [|done]. exfalso. apply (no_broken_not_some d Hnb). by apply Hf.
Qed.

Lemma ready_spec st t : ready st t = true ↔ is_ready st t.
Proof.
  unfold ready, is_ready.
  rewrite andb_true_iff, !bool_decide_eq_true. done.
Qed.

Lemma first_ready_Some d st t :
  first_ready d st = Some t ↔ first_ready_task st d t.
Proof.
  induction d as [|u us IH]; simpl.
  - split; [done|]. intros (b & a & Heq & _). by destruct b.
  - destruct (ready st u) eqn:Hr.
    + apply ready_spec in Hr. split.
      * intros [= <-]. exists [], us. split_and!; [done..|].
        by intros ? ?%elem_of_nil.
      * intros (b & a & Heq & Ht & Hb). destruct b as [|v b]; simpl in *.
        { congruence. }
        injection Heq as <- ->. exfalso. apply (Hb u); [left|done].
    + assert (¬ is_ready st u) as Hnr.
      { rewrite <-ready_spec. by rewrite Hr. }
      rewrite IH. split.
      * intros (b & a & -> & Ht & Hb). exists (u :: b), a. split_and!; [done..|].
        intros v [->|?]%elem_of_cons; [done|by apply Hb].
      * intros (b & a & Heq & Ht & Hb). destruct b as [|v b]; simpl in *.
        { injection Heq as -> ->. done. }
        injection Heq as <- ->. exists b, a. split_and!; [done..|].
        intros w Hw. apply Hb. by right.
Qed.

Lemma first_ready_None d st : first_ready d st = None ↔ none_ready st d.
Proof.
  unfold none_ready. induction d as [|u us IH]; simpl.
  - split; [|done]. by intros _ ? ?%elem_of_nil.
  - destruct (ready st u) eqn:Hr.
    + apply ready_spec in Hr. split; [done|].
      intros Hn. exfalso. apply (Hn u); [left|done].
    + rewrite IH. split.
      * intros Hn v [->|?]%elem_of_cons; [|by apply Hn].
        rewrite <-ready_spec. by rewrite Hr.
      * intros Hn v Hv. apply Hn. by right.
Qed.

Lemma first_ready_elem d st t :
  first_ready d st = Some t → t ∈ d ∧ is_ready st t.
Proof.
  intros (b & a & -> & Ht & _)%first_ready_Some. split; [|done].
  apply elem_of_app. right. left.
Qed.

(** *** [next_task] *)

Lemma next_task_frame σ :
  dag (next_task σ).1 = dag σ ∧ started (next_task σ).1 = started σ ∧
  future_mapping (next_task σ).1 = future_mapping σ ∧
  delivered (next_task σ).1 = delivered σ ∧
  exited (next_task σ).1 = exited σ.
Proof.
  unfold next_task. destruct (scan_aborted _ _) as [dn b].
  destruct b; [done|]. simpl.
  destruct (first_ready _ _); [done|]. by case_bool_decide.
Qed.

Lemma next_task_done σ :
  done (next_task σ).1 = done σ ++ aborted_names (before_broken (dag σ)).
Proof.
  rewrite <-scan_aborted_done. unfold next_task.
  destruct (scan_aborted _ _) as [dn b].
  destruct b; [done|]. simpl.
  destruct (first_ready _ _); [done|]. by case_bool_decide.
Qed.

Lemma next_task_broken σ :
  some_broken_pool (dag σ) → (next_task σ).2 = StopIteration BrokenPoolSeen.
Proof.
  intros Hb%(scan_aborted_flag _ (done σ)). unfold next_task.
  destruct (scan_aborted _ _) as [dn b]. simpl in Hb. by subst b.
Qed.

Lemma next_task_no_broken σ :
  no_broken_pool (dag σ) →
  (next_task σ).2 =
    match first_ready (dag σ) (started σ) with
    | Some t => ReturnTask (name t)
    | None =>
        if bool_decide (set_done (done σ ++ aborted_names (dag σ))
                        = set_all (dag σ))
        then StopIteration AllDone else ReturnNone
    end.
Proof.
  intros Hnb. unfold next_task.
  rewrite (scan_aborted_no_broken _ _ Hnb). simpl.
  destruct (first_ready _ _); [done|]. by case_bool_decide.
Qed.

Lemma next_task_returns σ n :
  (next_task σ).2 = ReturnTask n →
  ∃ t, t ∈ dag σ ∧ name t = n ∧ is_ready (started σ) t.
Proof.
  unfold next_task. destruct (scan_aborted _ _) as [dn b].
  destruct b; [done|]. simpl.
  destruct (first_ready _ _) as [t|] eqn:Hfr.
  - intros [= <-]. apply first_ready_elem in Hfr as [? ?]. by exists t.
  - by case_bool_decide.
Qed.

(** C2, as amended.  When no task's status is [BrokenProcessPool], a call of
    [next_task] returns the first task, in the order of the DAG, whose status
    is [WaitingExecution] and which is not in [started]; when there is none
    it raises [StopIteration] at the all-done site exactly when the set of
    names in [done] equals the set of all names, and returns [None]
    otherwise. *)
Theorem next_task_selects σ :
  no_broken_pool (dag σ) → selects_first_ready σ.
Proof.
  intros Hnb. unfold selects_first_ready.
  rewrite (next_task_no_broken σ Hnb), next_task_done.
  rewrite (before_broken_id _ Hnb). split.
  - intros t Ht%first_ready_Some. by rewrite Ht.
  - intros Hnone%first_ready_None. rewrite Hnone. split; intros Hset.
    + by rewrite bool_decide_eq_true_2.
    + by rewrite bool_decide_eq_false_2.
Qed.

Lemma next_task_selects_witness :
  no_broken_pool (dag Scenario.in_flight_and_aborted) ∧
  selects_first_ready Scenario.in_flight_and_aborted.
Proof.
  assert (no_broken_pool (dag Scenario.in_flight_and_aborted)) as Hnb.
  { apply (bool_decide_unpack _). vm_compute. exact I. }
  split; [exact Hnb|]. exact (next_task_selects _ Hnb).
Defined.

Lemma next_task_times_frame k σ :
  dag (next_task_times k σ) = dag σ.
Proof.
  induction k as [|k IH]; simpl; [done|].
  by destruct (next_task_frame (next_task_times k σ)) as (-> & _).
Qed.

Lemma set_done_eq_set_all dn d :
  set_done dn = set_all d ↔ ∀ n, n ∈ dn ↔ n ∈ names d.
Proof.
  unfold set_done, set_all. rewrite set_eq.
  by setoid_rewrite elem_of_list_to_set.
Qed.

Lemma next_task_times_started k σ :
  started (next_task_times k σ) = started σ.
Proof using Type.
  induction k as [|k IH]; simpl; [done|].
  by destruct (next_task_frame (next_task_times k σ)) as (_ & -> & _).
Qed.

Lemma next_task_times_names k σ n :
  no_broken_pool (dag σ) →
  n ∈ done (next_task_times k σ) ++ aborted_names (dag σ)
  ↔ n ∈ done σ ++ aborted_names (dag σ).
Proof using Type.
  intros Hnb. induction k as [|k IH]; [done|].
  change (next_task_times (S k) σ)
    with ((next_task (next_task_times k σ)).1).
  rewrite next_task_done, next_task_times_frame, before_broken_id by done.
  rewrite <-IH, !elem_of_app.
  split; [intros [H|H]; [exact H|by right]|intros H; by left].
Qed.

Lemma next_task_same_names σ dn :
  no_broken_pool (dag σ) →
  (∀ n, n ∈ dn ↔ n ∈ done σ) →
  (next_task (with_done dn σ)).2 = (next_task σ).2.
Proof using Type.
  intros Hnb Hdn. rewrite !next_task_no_broken by done. simpl.
  destruct (first_ready _ _); [done|].
  assert (set_done (dn ++ aborted_names (dag σ))
          = set_done (done σ ++ aborted_names (dag σ))) as ->; [|done].
  unfold set_done. apply set_eq. intros n.
  by rewrite !elem_of_list_to_set, !elem_of_app, Hdn.
Qed.

(** C9, as amended.  [done] is a list.  When no task's status is
    [BrokenProcessPool], every call of [next_task] appends every [Aborted]
    task to it without looking whether it is there already, so that after
    [k] calls an [Aborted] task occurs at least [k] times in [done].  The
    duplicates do not disturb the completion test of [next_task]: whatever
    [k] is, the call that follows [k] such calls raises [StopIteration] at
    the all-done site exactly when no task is ready and every task is named
    in [done] or is [Aborted]; and the outcome of a call is the same for
    any two [done] lists that hold the same names, however often, since the
    test compares sets of names. *)
Theorem next_task_appends_aborted σ k :
  no_broken_pool (dag σ) →
  appends_every_aborted σ ∧
  (∀ n, n ∈ aborted_names (dag σ) →
        k ≤ length (filter (λ m, m = n) (done (next_task_times k σ)))) ∧
  ((next_task (next_task_times k σ)).2 = StopIteration AllDone
   ↔ none_ready (started σ) (dag σ) ∧
     ∀ n, n ∈ done σ ∨ n ∈ aborted_names (dag σ) ↔ n ∈ names (dag σ)) ∧
  (∀ dn, (∀ n, n ∈ dn ↔ n ∈ done σ) →
         (next_task (with_done dn σ)).2 = (next_task σ).2) ∧
  (∀ dn, set_done dn = set_all (dag σ) ↔ ∀ n, n ∈ dn ↔ n ∈ names (dag σ)).
Proof using Type.
  intros Hnb. split_and!.
  - unfold appends_every_aborted.
    by rewrite next_task_done, before_broken_id.
  - intros n Hn. induction k as [|k IH]; [simpl; lia|].
    change (next_task_times (S k) σ)
      with ((next_task (next_task_times k σ)).1).
    rewrite next_task_done, next_task_times_frame, before_broken_id by done.
    rewrite filter_app, length_app.
    assert (1 ≤ length (filter (λ m, m = n) (aborted_names (dag σ)))).
    { apply list_elem_of_split in Hn as (l1 & l2 & ->).
      rewrite filter_app, filter_cons_True, length_app by done.
      simpl. lia. }
    lia.
  - rewrite next_task_no_broken by by rewrite next_task_times_frame.
    rewrite next_task_times_frame, next_task_times_started.
    rewrite <-first_ready_None.
    destruct (first_ready (dag σ) (started σ)) as [t|].
    + split; [done|]. by intros [? _].
    + case_bool_decide as Hset; rewrite set_done_eq_set_all in Hset.
      * split; [|done]. intros _. split; [done|]. intros n.
        by rewrite <-Hset, next_task_times_names, elem_of_app.
      * split; [done|]. intros [_ Hall]. destruct Hset. intros n.
        rewrite next_task_times_names, elem_of_app by done. apply Hall.
  - intros dn. by apply next_task_same_names.
  - intros dn. apply set_done_eq_set_all.
Qed.

Lemma next_task_appends_aborted_witness :
  no_broken_pool (dag Scenario.in_flight_and_aborted) ∧
  3 ≤ length (filter (λ m, m = "b")
                (done (next_task_times 3 Scenario.in_flight_and_aborted))).
Proof.
  assert (no_broken_pool (dag Scenario.in_flight_and_aborted)) as Hnb.
  { apply (bool_decide_unpack _). vm_compute. exact I. }
  split; [exact Hnb|].
  apply (next_task_appends_aborted _ 3 Hnb).
  apply (bool_decide_unpack _). vm_compute. exact I.
Defined.

(** *** The loop *)

Lemma callback_frame f σ :
  started (callback f σ).1 = started σ ∧
  future_mapping (callback f σ).1 = future_mapping σ ∧
  delivered (callback f σ).1 = delivered σ ∧
  exited (callback f σ).1 = exited σ.
Proof.
  unfold callback. destruct (lookup_future _ _) as [t|]; [|done].
  destruct (future_result f t) as [v|e]; [done|].
  by destruct (isinstance_BrokenProcessPool e).
Qed.

Lemma deliver_frame f σ :
  started (deliver f σ) = started σ ∧
  future_mapping (deliver f σ) = future_mapping σ ∧
  exited (deliver f σ) = exited σ.
Proof.
  unfold deliver. destruct (lookup_future _ _) as [t|]; [|done].
  case_bool_decide; [done|]. simpl.
  by destruct (callback_frame f σ) as (-> & -> & _ & ->).
Qed.

Lemma poll_exited σ site : exited σ = Some site → poll σ = σ.
Proof. unfold poll. by intros ->. Qed.

Lemma poll_dag σ : dag (poll σ) = dag σ.
Proof.
  unfold poll. destruct (exited σ); [done|].
  destruct (next_task_frame σ) as (Hd & _).
  destruct (next_task σ) as [σ1 [t| |site]]; by simpl in *.
Qed.

Lemma poll_broken σ :
  exited σ = None → some_broken_pool (dag σ) →
  exited (poll σ) = Some BrokenPoolSeen ∧
  started (poll σ) = started σ ∧ future_mapping (poll σ) = future_mapping σ.
Proof.
  intros Hrun Hb%next_task_broken. unfold poll. rewrite Hrun.
  destruct (next_task_frame σ) as (_ & Hs & Hfm & _).
  destruct (next_task σ) as [σ1 r]. simpl in *. by subst r.
Qed.

(** What a poll does to [started] and [future_mapping]: nothing, or the task
    that [next_task] returned is appended under a fresh future. *)
Lemma poll_started σ :
  (started (poll σ) = started σ ∧ future_mapping (poll σ) = future_mapping σ) ∨
  ∃ n, exited σ = None ∧ (next_task σ).2 = ReturnTask n ∧
       started (poll σ) = started σ ++ [n] ∧
       future_mapping (poll σ)
       = future_mapping σ ++ [(length (future_mapping σ), n)].
Proof.
  unfold poll. destruct (exited σ) eqn:Hx; [by left|].
  destruct (next_task_frame σ) as (_ & Hs & Hfm & _).
  destruct (next_task σ) as [σ1 [t| |site]]; simpl in *; [|by left..].
  right. exists t. by rewrite Hs, Hfm.
Qed.

Lemma exec_after_exit e σ site :
  exited σ = Some site →
  exited (exec e σ) = Some site ∧ started (exec e σ) = started σ ∧
  future_mapping (exec e σ) = future_mapping σ.
Proof.
  intros Hx. destruct e as [|f|n s]; simpl.
  - by rewrite (poll_exited σ site).
  - by destruct (deliver_frame f σ) as (-> & -> & ->).
  - done.
Qed.

Lemma run_events_after_exit evs σ site :
  exited σ = Some site →
  exited (run_events evs σ) = Some site ∧
  started (run_events evs σ) = started σ ∧
  future_mapping (run_events evs σ) = future_mapping σ.
Proof.
  revert σ. induction evs as [|e evs IH]; intros σ Hx; [done|].
  destruct (exec_after_exit e σ site Hx) as (Hx' & Hs & Hfm).
  destruct (IH _ Hx') as (? & ? & ?). simpl. split_and!; congruence.
Qed.

Lemma exec_names e σ : names (dag (exec e σ)) = names (dag σ).
Proof.
  destruct e as [|f|n s]; simpl.
  - by rewrite poll_dag.
  - unfold deliver. destruct (lookup_future _ _) as [t|]; [|done].
    case_bool_decide; [done|]. simpl. unfold callback.
    destruct (lookup_future _ _); [|done].
    destruct (future_result _ _) as [v|e]; simpl.
    + apply names_set_exec_status.
    + destruct (isinstance_BrokenProcessPool e); simpl; [|done].
      apply names_set_exec_status.
  - apply names_set_exec_status.
Qed.

Lemma run_events_names evs σ :
  names (dag (run_events evs σ)) = names (dag σ).
Proof.
  revert σ. induction evs as [|e evs IH]; intros σ; [done|].
  simpl. by rewrite IH, exec_names.
Qed.

(** C3.  In every run on a DAG (names are its keys, hence distinct), at
    every moment [σ] at which the loop is running: a task whose status is
    [Aborted] is not returned by [next_task] and the poll does not submit
    it; and when the status of some task is [BrokenProcessPool] at the
    start of the poll, the loop is left at the broken-pool site of
    [next_task] without a submission, and whatever happens afterwards
    nothing is submitted any more, however many tasks wait for execution. *)
Theorem aborted_and_broken_absorbing (d : DAG) (before after : list Event)
    σ n :
  NoDup (names d) → σ = run_events before (init d) → exited σ = None →
  (status_of n (dag σ) = Some Aborted →
     (next_task σ).2 ≠ ReturnTask n ∧ (n ∈ started (poll σ) → n ∈ started σ)) ∧
  (some_broken_pool (dag σ) →
     exited (poll σ) = Some BrokenPoolSeen ∧
     started (run_events after (poll σ)) = started σ ∧
     future_mapping (run_events after (poll σ)) = future_mapping σ).
Proof.
  intros Hd Hσ Hrun.
  assert (NoDup (names (dag σ))) as Hnd.
  { by rewrite Hσ, run_events_names. }
  clear Hσ. split.
  - intros Hab.
    assert ((next_task σ).2 ≠ ReturnTask n) as Hnot.
    { intros (t & Ht & <- & Hw & _)%next_task_returns.
      rewrite (status_of_NoDup t _ Hnd Ht), Hw in Hab. discriminate Hab. }
    split; [done|].
    destruct (poll_started σ) as [[-> _]|(m & _ & Hm & -> & _)]; [done|].
    intros [?|Hn%list_elem_of_singleton]%elem_of_app; [done|].
    subst m. by destruct Hnot.
  - intros Hb. destruct (poll_broken σ Hrun Hb) as (Hx & Hs & Hfm).
    destruct (run_events_after_exit after _ _ Hx) as (_ & -> & ->). done.
Qed.

(** *** The wrapper and the callback *)

(** C5, as amended.  [TaskBuildWrapper.__call__] returns the status that the
    build returns; when the build raises an instance of [Exception] it
    returns an [ExceptionResult] with [repr(task)] and the rendered trace,
    and the exception does not leave the call; an exception that is not an
    instance of [Exception] ([SystemExit], [KeyboardInterrupt]) leaves the
    call. *)
Theorem TaskBuildWrapper_call_outcome (self : TaskBuildWrapper) (kw : Kwargs) :
  (∀ s, build (task self) kw = Returns s →
        TaskBuildWrapper_call self kw = Returns (StatusValue s)) ∧
  (∀ e, build (task self) kw = Raises e → isinstance_Exception e = true →
        TaskBuildWrapper_call self kw
        = Returns (ExcValue
                     (mkExceptionResult (repr (task self)) (format_exc e)))) ∧
  (∀ e, build (task self) kw = Raises e → isinstance_Exception e = false →
        TaskBuildWrapper_call self kw = Raises e).
Proof.
  unfold TaskBuildWrapper_call.
  split_and!; intros x Hb; rewrite Hb; [done|by intros ->..].
Qed.

Lemma lookup_future_elem f t fm :
  lookup_future f fm = Some t → (f, t) ∈ fm.
Proof.
  induction fm as [|[g u] fm IH]; simpl; [done|].
  case_decide as Hg.
  - intros [= ->]. subst g. left.
  - intros ?%IH. by right.
Qed.

Lemma lookup_future_NoDup f t fm :
  NoDup fm.*1 → (f, t) ∈ fm → lookup_future f fm = Some t.
Proof.
  induction fm as [|[g u] fm IH]; simpl.
  - by intros _ ?%elem_of_nil.
  - intros [Hnotin Hnd]%NoDup_cons [[= -> ->]|Hin]%elem_of_cons.
    + by rewrite decide_True.
    + rewrite decide_False; [by apply IH|].
      intros ->. apply Hnotin. by apply (list_elem_of_fmap_2 fst _ (f, t)).
Qed.

(** C4.  For the future [f] of a dispatched task [t], [callback] sets the
    status of [t] to [BrokenProcessPool] when [f.result()] raises the fault
    of the pool, to [Errored] when the result is an [ExceptionResult], and
    to the returned status otherwise; in the three cases it appends [t] to
    [done] and returns. *)
Theorem callback_sets_status σ f t :
  lookup_future f (future_mapping σ) = Some t → t ∈ names (dag σ) →
  (∀ e, future_result f t = Raises e → isinstance_BrokenProcessPool e = true →
        dag (callback f σ).1 = set_exec_status t BrokenProcessPool (dag σ) ∧
        status_of t (dag (callback f σ).1) = Some BrokenProcessPool ∧
        done (callback f σ).1 = done σ ++ [t] ∧
        (callback f σ).2 = Returns ()) ∧
  (∀ r, future_result f t = Returns (ExcValue r) →
        dag (callback f σ).1 = set_exec_status t Errored (dag σ) ∧
        status_of t (dag (callback f σ).1) = Some Errored ∧
        done (callback f σ).1 = done σ ++ [t] ∧
        (callback f σ).2 = Returns ()) ∧
  (∀ s, future_result f t = Returns (StatusValue s) →
        dag (callback f σ).1 = set_exec_status t s (dag σ) ∧
        status_of t (dag (callback f σ).1) = Some s ∧
        done (callback f σ).1 = done σ ++ [t] ∧
        (callback f σ).2 = Returns ()).
Proof.
  intros Hf Hin. unfold callback. rewrite Hf.
  split_and!.
  - intros e -> ->. simpl. by rewrite status_of_set_eq.
  - intros r ->. simpl. by rewrite status_of_set_eq.
  - intros s ->. simpl. by rewrite status_of_set_eq.
Qed.

(** *** Submissions *)

Lemma init_recorded d : submissions_recorded (init d) ∧ NoDup (started (init d)).
Proof. repeat split. apply NoDup_nil_2. Qed.

Lemma exec_recorded e σ :
  submissions_recorded σ ∧ NoDup (started σ) →
  submissions_recorded (exec e σ) ∧ NoDup (started (exec e σ)).
Proof.
  unfold submissions_recorded. intros ((Htasks & Hids) & Hnd).
  destruct e as [|f|n s]; simpl.
  - destruct (poll_started σ) as [[-> ->]|(n & _ & Hret & -> & ->)]; [done|].
    apply next_task_returns in Hret as (t & _ & <- & _ & Hnew).
    rewrite !fmap_app, Htasks, Hids, length_app, seq_app. simpl.
    split_and!; [done..|].
    apply NoDup_app. split_and!; [done| |apply NoDup_singleton].
    by intros m Hm ->%list_elem_of_singleton.
  - by destruct (deliver_frame f σ) as (-> & -> & _).
  - done.
Qed.

Lemma run_events_recorded evs σ :
  submissions_recorded σ ∧ NoDup (started σ) →
  submissions_recorded (run_events evs σ) ∧ NoDup (started (run_events evs σ)).
Proof.
  revert σ. induction evs as [|e evs IH]; intros σ Hinv; [done|].
  simpl. by apply IH, exec_recorded.
Qed.

Lemma exec_started_mono e σ n : n ∈ started σ → n ∈ started (exec e σ).
Proof.
  intros Hn. destruct e as [|f|m s]; simpl; [| |done].
  2: { by destruct (deliver_frame f σ) as (-> & _). }
  destruct (poll_started σ) as [[-> _]|(m & _ & _ & -> & _)]; [done|].
  apply elem_of_app. by left.
Qed.

Lemma run_events_started_mono evs σ n :
  n ∈ started σ → n ∈ started (run_events evs σ).
Proof.
  revert σ. induction evs as [|e evs IH]; intros σ Hn; [done|].
  simpl. by apply IH, exec_started_mono.
Qed.

(** C7.  Along every run, whatever the events: no task occurs twice in
    [started], the tasks of the submitted futures are exactly the tasks of
    [started] and each future is submitted for one task; and a task that is
    in [started] is not returned by [next_task], now or at any later
    moment of the run. *)
Theorem submitted_at_most_once (d : DAG) (evs later : list Event) :
  NoDup (started (run_events evs (init d))) ∧
  (future_mapping (run_events evs (init d))).*2
  = started (run_events evs (init d)) ∧
  NoDup (future_mapping (run_events evs (init d))).*1 ∧
  ∀ n, n ∈ started (run_events evs (init d)) →
       (next_task (run_events later (run_events evs (init d)))).2
       ≠ ReturnTask n.
Proof.
  destruct (run_events_recorded evs (init d) (init_recorded d))
    as ((Htasks & Hids) & Hnd).
  split_and!; [done..| |].
  - rewrite Hids. apply NoDup_seq.
  - intros n Hn (t & _ & <- & _ & Hnew)%next_task_returns.
    by apply Hnew, run_events_started_mono.
Qed.

(** *** Who writes a status *)

Lemma lookup_future_task f t fm : lookup_future f fm = Some t → t ∈ fm.*2.
Proof.
  intros Hft%lookup_future_elem. by apply (list_elem_of_fmap_2 snd _ (f, t)).
Qed.

Lemma callback_status_frame f σ n :
  n ∉ (future_mapping σ).*2 →
  status_of n (dag (callback f σ).1) = status_of n (dag σ).
Proof.
  intros Hn. unfold callback.
  destruct (lookup_future _ _) as [t|] eqn:Hf; [|done].
  assert (t ≠ n) as Hne.
  { intros ->. by apply Hn, (lookup_future_task f). }
  destruct (future_result f t) as [v|e]; simpl.
  - by apply status_of_set_ne.
  - destruct (isinstance_BrokenProcessPool e); simpl; [|done].
    by apply status_of_set_ne.
Qed.

Lemma exec_status_frame e σ n :
  scheduler_event e → n ∉ (future_mapping σ).*2 →
  status_of n (dag (exec e σ)) = status_of n (dag σ).
Proof.
  intros He Hn. destruct e as [|f|m s]; simpl; [|  |done].
  - by rewrite poll_dag.
  - unfold deliver. destruct (lookup_future _ _); [|done].
    case_bool_decide; [done|]. simpl. by apply callback_status_frame.
Qed.

Lemma run_events_status_frame evs σ n :
  Forall scheduler_event evs →
  submissions_recorded σ ∧ NoDup (started σ) →
  n ∉ started (run_events evs σ) →
  status_of n (dag (run_events evs σ)) = status_of n (dag σ).
Proof.
  intros Hevs. revert σ.
  induction Hevs as [|e evs He _ IH]; intros σ Hinv Hn; [done|].
  simpl in *. rewrite IH; [|by apply exec_recorded|done].
  apply exec_status_frame; [done|].
  destruct Hinv as ((-> & _) & _).
  intros Hin. by apply Hn, run_events_started_mono, exec_started_mono.
Qed.

Lemma run_events_app evs1 evs2 σ :
  run_events (evs1 ++ evs2) σ = run_events evs2 (run_events evs1 σ).
Proof. apply foldl_app. Qed.

Lemma shutdown_run_events σ :
  shutdown σ = run_events (Complete <$> (future_mapping σ).*1) σ.
Proof.
  unfold shutdown, run_events. generalize (future_mapping σ) as l.
  intros l. revert σ.
  induction l as [|[f t] l IH]; intros σ; simpl; [done|]. apply IH.
Qed.

(** C8.  When a poll leaves the loop because it saw a [BrokenProcessPool]
    status, then, whatever the scheduler does afterwards (polls, callbacks
    of the outstanding futures, the shutdown of the pool), a task that had
    not been submitted is still not submitted and its status is the one it
    had before the poll: the scheduler writes no status of such a task. *)
Theorem fatal_stop_frame (d : DAG) (before after : list Event) σ n :
  σ = run_events before (init d) →
  exited σ = None → some_broken_pool (dag σ) →
  Forall scheduler_event after →
  n ∉ started σ →
  exited (shutdown (run_events after (poll σ))) = Some BrokenPoolSeen ∧
  (n ∉ started (shutdown (run_events after (poll σ)))) ∧
  status_of n (dag (shutdown (run_events after (poll σ))))
  = status_of n (dag σ).
Proof.
  intros -> Hrun Hb Hafter Hn.
  set (σ := run_events before (init d)) in *.
  assert (submissions_recorded σ ∧ NoDup (started σ)) as Hinv.
  { apply run_events_recorded, init_recorded. }
  destruct (poll_broken σ Hrun Hb) as (Hx & Hs & Hfm).
  rewrite shutdown_run_events.
  set (rest := Complete <$> _).
  assert (run_events rest (run_events after (poll σ))
          = run_events (Poll :: after ++ rest) σ) as ->.
  { by rewrite <-run_events_app. }
  destruct (run_events_after_exit (after ++ rest) _ _ Hx) as (Hx' & Hs' & _).
  assert (run_events (after ++ rest) (poll σ)
          = run_events (Poll :: after ++ rest) σ) as Heq by done.
  rewrite Heq in Hx', Hs'. rewrite Hs in Hs'.
  assert (n ∉ started (run_events (Poll :: after ++ rest) σ)) as Hn'.
  { by rewrite Hs'. }
  split_and!; [done..|].
  apply run_events_status_frame; [|done..].
  constructor; [done|]. apply Forall_app. split; [done|].
  subst rest. apply Forall_fmap, Forall_forall. by intros.
Qed.

(** *** A DAG that is already built *)





(** *** The end of a run *)

Lemma get_future_result_found f t fm :
  lookup_future f fm = Some t →
  get_future_result f fm =
    match future_result f t with
    | Returns v => Returns v
    | Raises e =>
        if isinstance_BrokenProcessPool e
        then Raises (mkExc BrokenProcessPoolError ("Broken pool " +:+ str t))
        else Raises e
    end.
Proof. unfold get_future_result. by intros ->. Qed.

Lemma returns_or_raises items :
  Forall result_returns items ∨ Exists result_raises items.
Proof.
  induction items as [|[f t] items [IH|IH]].
  - left. constructor.
  - destruct (future_result f t) as [v|e] eqn:Hr.
    + left. constructor; [by exists v|done].
    + right. left. by exists e.
  - right. by right.
Qed.

Lemma returns_not_raises items :
  Forall result_returns items → ¬ Exists result_raises items.
Proof.
  rewrite Forall_forall, Exists_exists.
  intros Hret (ft & Hft & e & He). destruct (Hret ft Hft) as (v & Hv).
  congruence.
Qed.

Lemma collect_returns items fm :
  (∀ ft, ft ∈ items → lookup_future ft.1 fm = Some ft.2) →
  Forall result_returns items → collect items fm = Returns (failures items).
Proof.
  intros Hfm Hret. induction Hret as [|[f t] items (v & Hv) _ IH]; [done|].
  simpl in Hv. unfold failures. cbn [collect omap list_omap].
  rewrite (get_future_result_found f t) by (apply (Hfm (f, t)); left).
  rewrite Hv. simpl. rewrite Hv.
  rewrite IH by (intros ft Hft; apply Hfm; by right).
  by destruct v.
Qed.

Lemma collect_raises items fm :
  (∀ ft, ft ∈ items → lookup_future ft.1 fm = Some ft.2) →
  Exists result_raises items → ∃ e, collect items fm = Raises e.
Proof.
  intros Hfm. induction items as [|[f t] items IH]; intros Hex.
  - by apply Exists_nil in Hex.
  - cbn [collect].
    rewrite (get_future_result_found f t) by (apply (Hfm (f, t)); left).
    destruct (future_result f t) as [v|e] eqn:Hr.
    + apply Exists_cons in Hex as [(e & He)|Hex]; [simpl in He; congruence|].
      destruct IH as (e & ->); [intros ft Hft; apply Hfm; by right|done|].
      destruct v; simpl; eauto.
    + destruct (isinstance_BrokenProcessPool e); eauto.
Qed.

Lemma failures_not_nil items :
  failures items ≠ [] ↔ Exists result_failed items.
Proof.
  unfold failures. induction items as [|[f t] items IH].
  - rewrite Exists_nil. done.
  - rewrite Exists_cons. cbn [omap list_omap]. unfold result_failed at 1.
    simpl. destruct (future_result f t) as [[s|r]|e].
    + rewrite IH. split; [by right|]. by intros [(? & ?)|?].
    + split; [|done]. intros _. left. by exists r.
    + rewrite IH. split; [by right|]. by intros [(? & ?)|?].
Qed.

Lemma failures_nil items :
  failures items = [] ↔ ¬ Exists result_failed items.
Proof.
  rewrite <-failures_not_nil. destruct (failures items); naive_solver.
Qed.

Lemma failures_elem items r :
  r ∈ failures items →
  ∃ f t e, (f, t) ∈ items ∧ build t kwargs = Raises e ∧
           r = mkExceptionResult (repr t) (format_exc e).
Proof.
  unfold failures. intros ([f t] & Hft & Hr)%list_elem_of_omap.
  simpl in Hr. exists f, t.
  unfold future_result, TaskBuildWrapper_call in Hr. simpl in Hr.
  destruct (pool_broken f); [done|].
  destruct (build t kwargs) as [s|e]; [done|].
  destruct (isinstance_Exception e); [|done].
  injection Hr as <-. by exists e.
Qed.

Lemma broken_result_raises items :
  Exists (λ ft, pool_broken ft.1 = true) items → Exists result_raises items.
Proof.
  intros Hex. eapply Exists_impl; [exact Hex|].
  intros [f t] Hb. simpl in Hb.
  unfold result_raises, future_result. simpl. rewrite Hb. eauto.
Qed.

Lemma collect_raises_inv items fm e :
  (∀ ft, ft ∈ items → lookup_future ft.1 fm = Some ft.2) →
  collect items fm = Raises e →
  ∃ ft, ft ∈ items ∧
        match future_result ft.1 ft.2 with
        | Returns _ => False
        | Raises e' =>
            if isinstance_BrokenProcessPool e'
            then e = mkExc BrokenProcessPoolError ("Broken pool " +:+ str ft.2)
            else e = e'
        end.
Proof.
  intros Hfm. induction items as [|[f t] items IH]; [done|].
  cbn [collect].
  rewrite (get_future_result_found f t) by (apply (Hfm (f, t)); left).
  assert (collect items fm = Raises e →
          ∃ ft, ft ∈ (f, t) :: items ∧
            match future_result ft.1 ft.2 with
            | Returns _ => False
            | Raises e' =>
                if isinstance_BrokenProcessPool e'
                then e = mkExc BrokenProcessPoolError
                           ("Broken pool " +:+ str ft.2)
                else e = e'
            end) as Hrest.
  { intros (ft & Hft & He)%IH; [|intros ft Hft; apply Hfm; by right].
    exists ft. split; [by right|done]. }
  destruct (future_result f t) as [[s|r]|e'] eqn:Hr; simpl.
  - done.
  - destruct (collect items fm); [done|]. done.
  - intros He. exists (f, t). split; [left|]. simpl. rewrite Hr.
    destruct (isinstance_BrokenProcessPool e'); congruence.
Qed.

Lemma future_result_raises f t e :
  future_result f t = Raises e →
  (pool_broken f = true ∧ isinstance_BrokenProcessPool e = true) ∨
  (pool_broken f = false ∧ build t kwargs = Raises e
   ∧ isinstance_BrokenProcessPool e = false).
Proof.
  unfold future_result, TaskBuildWrapper_call. simpl.
  destruct (pool_broken f).
  - intros [= <-]. by left.
  - destruct (build t kwargs) as [s|e'] eqn:Hb; [done|].
    destruct (isinstance_Exception e') eqn:Hexc; [done|].
    intros [= <-]. right. split_and!; [done..|].
    unfold isinstance_Exception, isinstance_BrokenProcessPool in *.
    by destruct (exc_class e').
Qed.

Lemma aggregate_cases σ :
  NoDup (future_mapping σ).*1 →
  (Forall result_returns (future_mapping σ) ∧
   Exists result_failed (future_mapping σ) ∧
   aggregate σ = RaisesDAGBuildError (failures (future_mapping σ))) ∨
  (Forall result_returns (future_mapping σ) ∧
   ¬ Exists result_failed (future_mapping σ) ∧
   aggregate σ = ReturnsNone) ∨
  (Exists result_raises (future_mapping σ) ∧
   ∃ e, aggregate σ = RaisesOther e).
Proof.
  intros Hnd. unfold aggregate.
  assert (∀ ft, ft ∈ future_mapping σ →
                lookup_future ft.1 (future_mapping σ) = Some ft.2) as Hfm.
  { intros [f t] Hft. by apply lookup_future_NoDup. }
  destruct (returns_or_raises (future_mapping σ)) as [Hret|Hex].
  - rewrite (collect_returns _ _ Hfm Hret).
    destruct (failures (future_mapping σ)) as [|r l] eqn:Hfail; simpl.
    + right. left. split_and!; [done| |done]. by apply failures_nil.
    + left. split_and!; [done| |done].
      apply failures_not_nil. by rewrite Hfail.
  - right. right. split; [done|].
    destruct (collect_raises _ _ Hfm Hex) as (e & ->). by exists e.
Qed.

Lemma elem_of_set_exec_status t n s d :
  t ∈ set_exec_status n s d →
  (name t = n ∧ exec_status t = s) ∨ (name t ≠ n ∧ t ∈ d).
Proof.
  induction d as [|u us IH]; simpl; [by intros ?%elem_of_nil|].
  intros [->|Hin]%elem_of_cons.
  - case_decide; [by left|]. right. split; [done|left].
  - destruct (IH Hin) as [?|[? ?]]; [by left|]. right. split; [done|by right].
Qed.

Lemma write_accounted σ n s :
  (s = BrokenProcessPool →
   ∃ f, (f, n) ∈ future_mapping σ ∧ pool_broken f = true) →
  broken_accounted σ →
  broken_accounted (with_dag (set_exec_status n s (dag σ)) σ).
Proof.
  intros Hs [Hst Hx]. split; [|done]. simpl.
  intros t [[<- Hts]|[_ Hin]]%elem_of_set_exec_status Hb.
  - apply Hs. congruence.
  - by apply Hst.
Qed.

Lemma exec_accounted e σ :
  (∀ t, build t kwargs ≠ Returns BrokenProcessPool) →
  derives_broken e = false →
  broken_accounted σ → broken_accounted (exec e σ).
Proof.
  intros Hbuild He Hacc. destruct e as [|f|n s]; simpl.
  - destruct Hacc as [Hst Hx].
    pose proof (poll_dag σ) as Hdag.
    assert (∀ ft, ft ∈ future_mapping σ → ft ∈ future_mapping (poll σ))
      as Hgrow.
    { intros ft Hft.
      destruct (poll_started σ) as [[_ ->]|(n & _ & _ & _ & ->)]; [done|].
      apply elem_of_app. by left. }
    assert (∀ t, t ∈ dag σ → exec_status t = BrokenProcessPool →
                 ∃ f, (f, name t) ∈ future_mapping (poll σ)
                      ∧ pool_broken f = true) as Hst'.
    { intros t Ht Hb. destruct (Hst t Ht Hb) as (f & Hf & Hp).
      exists f. split; [by apply Hgrow|done]. }
    split; [by rewrite Hdag|].
    intros Hexit. destruct (exited σ) as [site|] eqn:Hrun.
    + rewrite (poll_exited σ site Hrun) in *. rewrite Hrun in Hexit.
      apply Hx. congruence.
    + destruct (decide (some_broken_pool (dag σ))) as [Hb|Hnb].
      * apply Exists_exists in Hb as (t & Ht & Hb).
        destruct (Hst' t Ht Hb) as (f & Hf & Hp).
        apply Exists_exists. by exists (f, name t).
      * exfalso. revert Hexit. unfold poll. rewrite Hrun.
        pose proof (scan_aborted_flag (dag σ) (done σ)) as Hflag.
        unfold next_task.
        destruct (scan_aborted (dag σ) (done σ)) as [dn [|]]; simpl in *.
        { destruct Hnb. by apply Hflag. }
        destruct (first_ready _ _); [simpl; congruence|].
        case_bool_decide; simpl; congruence.
  - unfold deliver. destruct (lookup_future _ _) as [t|] eqn:Hf; [|done].
    case_bool_decide; [done|].
    assert (broken_accounted (callback f σ).1) as [Hst Hx]; [|done].
    unfold callback. rewrite Hf.
    apply lookup_future_elem in Hf.
    destruct (future_result f t) as [v|e] eqn:Hr; simpl.
    + destruct Hacc as [Hst Hx]. split; [|done].
      apply (write_accounted σ t _); [|done].
      intros Hv. exfalso. destruct v as [s|r]; [|done]. subst s.
      unfold future_result, TaskBuildWrapper_call in Hr. simpl in Hr.
      destruct (pool_broken f); [done|].
      destruct (build t kwargs) as [s|e] eqn:Hb.
      * injection Hr as ->. by destruct (Hbuild t).
      * by destruct (isinstance_Exception e).
    + destruct (isinstance_BrokenProcessPool e) eqn:Hbpp; [|done].
      destruct Hacc as [Hst Hx]. split; [|done].
      apply (write_accounted σ t _); [|done].
      intros _. exists f. split; [done|].
      by apply future_result_raises in Hr as [[? _]|(_ & _ & ?)]; [|congruence].
  - apply write_accounted; [|done]. intros ->. by simpl in He.
Qed.

Lemma run_events_accounted evs σ :
  (∀ t, build t kwargs ≠ Returns BrokenProcessPool) →
  Forall (λ e, derives_broken e = false) evs →
  broken_accounted σ → broken_accounted (run_events evs σ).
Proof.
  intros Hbuild Hevs. revert σ.
  induction Hevs as [|e evs He _ IH]; intros σ Hacc; [done|].
  simpl. by apply IH, exec_accounted.
Qed.

Lemma init_accounted d : no_broken_pool d → broken_accounted (init d).
Proof.
  intros Hnb. split; [|done]. simpl. intros t Ht Hb.
  unfold no_broken_pool in Hnb. rewrite Forall_forall in Hnb.
  by destruct (Hnb t Ht).
Qed.

Lemma Parallel_call_inv d evs σ r :
  Parallel_call d evs = Some (σ, r) →
  r = aggregate σ ∧ submissions_recorded σ ∧
  ∃ fs, σ = run_events (evs ++ (Complete <$> fs)) (init d).
Proof.
  unfold Parallel_call.
  destruct (exited (run_events evs (init d))) as [site|] eqn:Hx; [|done].
  intros [= <- <-]. rewrite shutdown_run_events, <-run_events_app.
  split; [done|]. split; [|by eexists].
  apply run_events_recorded, init_recorded.
Qed.

(** C1, as amended.  When the loop has been left, the run raises the
    aggregate [DAGBuildError] exactly when the result of every submitted
    future is a value and at least one of them is an [ExceptionResult] (the
    outcome on which the callback sets [Errored]); the error then carries
    the [ExceptionResult]s in the order of submission, each with the
    [repr] of a submitted task and the rendered trace of what its build
    raised.
    [__call__] returns without raising exactly when all the results are
    statuses.  When asking some future for its result raises, as it does
    for the fault of a collapsed pool (the outcome on which the callback
    sets [BrokenProcessPool]), the run fails as well, with or without
    [ExceptionResult]s, but not with the aggregate error: the exception of
    [get_future_result] leaves [__call__], and if it is a
    [BrokenProcessPool] its message names the task of a future of the
    collapsed pool.  In a run that starts without a [BrokenProcessPool]
    status and in which neither the task model sets this status nor a build
    returns it, the loop is only left at the broken-pool site of
    [next_task] after such a fault, so that the run then fails. *)
Theorem run_outcome (d : DAG) (evs : list Event) σ r :
  Parallel_call d evs = Some (σ, r) →
  ((∃ exps, r = RaisesDAGBuildError exps) ↔
     Forall result_returns (future_mapping σ) ∧
     Exists result_failed (future_mapping σ)) ∧
  (∀ exps, r = RaisesDAGBuildError exps →
           exps = failures (future_mapping σ) ∧
           ∀ x, x ∈ exps →
                ∃ f t e, (f, t) ∈ future_mapping σ ∧
                         build t kwargs = Raises e ∧
                         x = mkExceptionResult (repr t) (format_exc e)) ∧
  (r = ReturnsNone ↔
     Forall result_returns (future_mapping σ) ∧
     ¬ Exists result_failed (future_mapping σ)) ∧
  ((∃ e, r = RaisesOther e) ↔ Exists result_raises (future_mapping σ)) ∧
  (Exists (λ ft, pool_broken ft.1 = true) (future_mapping σ) →
     ∃ e, r = RaisesOther e) ∧
  (∀ e, r = RaisesOther e → exc_class e = BrokenProcessPoolError →
        ∃ ft, ft ∈ future_mapping σ ∧ pool_broken ft.1 = true ∧
              exc_msg e = "Broken pool " +:+ str ft.2) ∧
  (no_broken_pool d → Forall (λ e, derives_broken e = false) evs →
   (∀ t, build t kwargs ≠ Returns BrokenProcessPool) →
   exited σ = Some BrokenPoolSeen → ∃ e, r = RaisesOther e).
Proof.
  intros (-> & (_ & Hids) & fs & Hσ)%Parallel_call_inv.
  assert (no_broken_pool d → Forall (λ e, derives_broken e = false) evs →
          (∀ t, build t kwargs ≠ Returns BrokenProcessPool) →
          exited σ = Some BrokenPoolSeen →
          Exists result_raises (future_mapping σ)) as Hfatal.
  { intros Hnb Hevs Hbuild Hexit. apply broken_result_raises.
    assert (broken_accounted σ) as [_ Hx]; [|by apply Hx].
    rewrite Hσ. apply run_events_accounted; [done| |by apply init_accounted].
    apply Forall_app. split; [done|].
    apply Forall_fmap, Forall_forall. by intros. }
  clear Hσ.
  assert (NoDup (future_mapping σ).*1) as Hnd.
  { rewrite Hids. apply NoDup_seq. }
  assert (∀ ft, ft ∈ future_mapping σ →
                lookup_future ft.1 (future_mapping σ) = Some ft.2) as Hfm.
  { intros [f t] Hft. by apply lookup_future_NoDup. }
  pose proof (@returns_not_raises (future_mapping σ)) as Hexcl.
  assert (∀ e, aggregate σ = RaisesOther e →
               collect (future_mapping σ) (future_mapping σ) = Raises e)
    as Hcollect.
  { unfold aggregate. intros e.
    destruct (collect _ _) as [l|e']; [|congruence].
    by destruct (collector_bool l). }
  destruct (aggregate_cases σ Hnd)
    as [(Hret & Hfail & Hagg)|[(Hret & Hfail & Hagg)|(Hex & e0 & Hagg)]].
  - rewrite Hagg. split_and!.
    + split; [done|]. intros _. by eexists.
    + intros exps [= <-]. split; [done|]. apply failures_elem.
    + split; [done|]. by intros [_ []].
    + split; [by intros (? & ?)|]. intros ?. by destruct Hexcl.
    + intros Hb%broken_result_raises. by destruct Hexcl.
    + done.
    + intros. destruct Hexcl; auto.
  - rewrite Hagg. split_and!.
    + split; [by intros (? & ?)|]. by intros [_ ?].
    + done.
    + done.
    + split; [by intros (? & ?)|]. intros ?. by destruct Hexcl.
    + intros Hb%broken_result_raises. by destruct Hexcl.
    + done.
    + intros. destruct Hexcl; auto.
  - rewrite Hagg. split_and!.
    + split; [by intros (? & ?)|]. intros [Hret _]. by destruct Hexcl.
    + done.
    + split; [done|]. intros [Hret _]. by destruct Hexcl.
    + split; [done|]. intros _. by exists e0.
    + intros _. by exists e0.
    + intros e [= <-] Hclass. rewrite Hagg in Hcollect.
      specialize (Hcollect e0 eq_refl).
      apply collect_raises_inv in Hcollect as ([f t] & Hft & He); [|done].
      simpl in He. destruct (future_result f t) as [v|e'] eqn:Hr; [done|].
      exists (f, t). simpl.
      apply future_result_raises in Hr as [[Hb Hbpp]|(_ & _ & Hbpp)];
        rewrite Hbpp in He; subst e0; [done|].
      unfold isinstance_BrokenProcessPool in Hbpp. by rewrite Hclass in Hbpp.
    + intros. by exists e0.
Qed.

(** ** Further properties of the executor *)

(** *** The bookkeeping lists *)

Lemma poll_done σ :
  exited σ = None →
  done (poll σ) = done σ ++ aborted_names (before_broken (dag σ)).
Proof.
  intros Hrun. unfold poll. rewrite Hrun.
  pose proof (next_task_done σ) as Hd.
  destruct (next_task σ) as [σ1 [t| |site]]; by simpl in *.
Qed.

Lemma aborted_names_elem n d :
  n ∈ aborted_names d → ∃ t, t ∈ d ∧ name t = n ∧ exec_status t = Aborted.
Proof.
  unfold aborted_names. intros (t & -> & Ht)%list_elem_of_fmap.
  apply list_elem_of_filter in Ht as [Hs Ht]. by exists t.
Qed.

Lemma before_broken_elem t d : t ∈ before_broken d → t ∈ d.
Proof.
  induction d as [|u us IH]; simpl; [done|].
  case_decide; [by intros ?%elem_of_nil|].
  intros [->|?]%elem_of_cons; [left|right; by apply IH].
Qed.

Lemma callback_done f σ :
  done (callback f σ).1 = done σ ∨
  ∃ t, lookup_future f (future_mapping σ) = Some t ∧
       done (callback f σ).1 = done σ ++ [t].
Proof.
  unfold callback. destruct (lookup_future _ _) as [t|]; [|by left].
  destruct (future_result f t) as [v|e]; simpl.
  - right. by exists t.
  - destruct (isinstance_BrokenProcessPool e); simpl; [|by left].
    right. by exists t.
Qed.

Lemma callback_names f σ : names (dag (callback f σ).1) = names (dag σ).
Proof.
  unfold callback. destruct (lookup_future _ _); [|done].
  destruct (future_result _ _) as [v|e]; simpl.
  - apply names_set_exec_status.
  - destruct (isinstance_BrokenProcessPool e); simpl; [|done].
    apply names_set_exec_status.
Qed.

Lemma init_in_dag d : bookkeeping_in_dag (init d).
Proof.
  split; simpl; [|by intros ? ?%elem_of_nil].
  intros n (t & -> & Ht)%list_elem_of_fmap.
  apply list_elem_of_filter in Ht as [_ Ht]. by apply list_elem_of_fmap_2.
Qed.

Lemma exec_in_dag e σ :
  submissions_recorded σ →
  bookkeeping_in_dag σ → bookkeeping_in_dag (exec e σ).
Proof.
  intros [Htasks _] [Hdone Hstarted]. unfold bookkeeping_in_dag.
  rewrite exec_names. destruct e as [|f|m s]; simpl; [| |done].
  - split.
    + destruct (exited σ) as [site|] eqn:Hx.
      { by rewrite (poll_exited σ site). }
      rewrite (poll_done σ Hx).
      intros n [?|Hn]%elem_of_app; [by apply Hdone|].
      apply aborted_names_elem in Hn as (t & Ht%before_broken_elem & <- & _).
      by apply list_elem_of_fmap_2.
    + destruct (poll_started σ) as [[-> _]|(n & _ & Hret & -> & _)]; [done|].
      intros m [?|Hm%list_elem_of_singleton]%elem_of_app; [by apply Hstarted|].
      subst m. apply next_task_returns in Hret as (t & Ht & <- & _).
      by apply list_elem_of_fmap_2.
  - destruct (deliver_frame f σ) as (-> & _). split; [|done].
    unfold deliver. destruct (lookup_future _ _) as [t|] eqn:Hf; [|done].
    case_bool_decide; [done|]. simpl.
    destruct (callback_done f σ) as [->|(t' & Hf' & ->)]; [done|].
    intros n [?|Hn%list_elem_of_singleton]%elem_of_app; [by apply Hdone|].
    subst n. apply Hstarted. rewrite <-Htasks.
    by apply (lookup_future_task f).
Qed.

Lemma run_events_in_dag evs σ :
  submissions_recorded σ ∧ NoDup (started σ) →
  bookkeeping_in_dag σ → bookkeeping_in_dag (run_events evs σ).
Proof.
  revert σ. induction evs as [|e evs IH]; intros σ Hrec Hin; [done|].
  simpl. apply IH; [by apply exec_recorded|].
  apply exec_in_dag; [by destruct Hrec|done].
Qed.

(** X1.  Along every run, whatever the events, [done] and [started] only
    hold names of tasks of the DAG.  Hence the test [set_done == set_all]
    of [next_task] holds exactly when every task of the DAG is in [done],
    and the number of finished tasks that [next_task] logs does not exceed
    the number of tasks, however often a name occurs in [done]. *)
Theorem bookkeeping_stays_in_dag (d : DAG) (evs : list Event) :
  (∀ n, n ∈ done (run_events evs (init d)) → n ∈ names d) ∧
  (∀ n, n ∈ started (run_events evs (init d)) → n ∈ names d) ∧
  (set_done (done (run_events evs (init d)))
   = set_all (dag (run_events evs (init d)))
   ↔ ∀ n, n ∈ names d → n ∈ done (run_events evs (init d))) ∧
  size (set_done (done (run_events evs (init d))))
  ≤ size (set_all (dag (run_events evs (init d)))).
Proof.
  destruct (run_events_in_dag evs (init d) (init_recorded d) (init_in_dag d))
    as [Hdone Hstarted].
  rewrite run_events_names in Hdone, Hstarted. simpl in Hdone, Hstarted.
  assert (names (dag (run_events evs (init d))) = names d) as Hnames.
  { by rewrite run_events_names. }
  split_and!; [done..| |].
  - rewrite set_done_eq_set_all, Hnames. naive_solver.
  - apply subseteq_size. unfold set_done, set_all. rewrite Hnames.
    intros n Hn%elem_of_list_to_set. by apply elem_of_list_to_set, Hdone.
Qed.

(** X2.  Along every run, whatever the events, the number of builds
    submitted to the pool is at most the number of tasks of the DAG. *)
Theorem submissions_bounded (d : DAG) (evs : list Event) :
  length (future_mapping (run_events evs (init d))) ≤ length d.
Proof.
  destruct (run_events_recorded evs (init d) (init_recorded d))
    as ((Htasks & _) & Hnd).
  destruct (run_events_in_dag evs (init d) (init_recorded d) (init_in_dag d))
    as [_ Hstarted].
  rewrite run_events_names in Hstarted. simpl in Hstarted.
  rewrite <-(length_fmap snd), Htasks, <-(length_fmap name d).
  apply submseteq_length, NoDup_submseteq; [done|]. apply Hstarted.
Qed.

(** *** Submitted tasks and their outcome *)

Lemma status_of_elem n s d :
  status_of n d = Some s → ∃ t, t ∈ d ∧ name t = n ∧ exec_status t = s.
Proof.
  induction d as [|t ts IH]; simpl; [done|].
  case_decide.
  - intros [= <-]. exists t. split; [left|done].
  - intros (u & ? & ?)%IH. exists u. split; [by right|done].
Qed.

Lemma status_of_broken n d :
  status_of n d = Some BrokenProcessPool → some_broken_pool d.
Proof.
  intros (t & Ht & _ & Hs)%status_of_elem. apply Exists_exists. by exists t.
Qed.

Lemma not_some_no_broken d : ¬ some_broken_pool d → no_broken_pool d.
Proof.
  unfold some_broken_pool, no_broken_pool.
  rewrite Forall_forall, Exists_exists. intros Hno t Ht Hs.
  apply Hno. by exists t.
Qed.

Lemma snd_injective_NoDup {A B} (l : list (A * B)) a1 a2 b :
  NoDup l.*2 → (a1, b) ∈ l → (a2, b) ∈ l → a1 = a2.
Proof.
  induction l as [|[a' b'] l IH]; simpl; [by intros _ ?%elem_of_nil|].
  intros [Hnotin Hnd]%NoDup_cons H1 H2.
  apply elem_of_cons in H1 as [H1|H1]; apply elem_of_cons in H2 as [H2|H2].
  - congruence.
  - injection H1 as -> ->. destruct Hnotin.
    by apply (list_elem_of_fmap_2 snd _ (a2, b')).
  - injection H2 as -> ->. destruct Hnotin.
    by apply (list_elem_of_fmap_2 snd _ (a1, b')).
  - by apply IH.
Qed.

Lemma submitted_lookup σ f n :
  submissions_recorded σ → (f, n) ∈ future_mapping σ →
  lookup_future f (future_mapping σ) = Some n ∧ f < length (future_mapping σ)
  ∧ n ∈ started σ.
Proof.
  intros [Htasks Hids] Hfn. split_and!.
  - apply lookup_future_NoDup; [|done]. rewrite Hids. apply NoDup_seq.
  - apply (list_elem_of_fmap_2 fst) in Hfn. rewrite Hids in Hfn.
    apply elem_of_seq in Hfn. simpl in Hfn. lia.
  - rewrite <-Htasks. by apply (list_elem_of_fmap_2 snd _ (f, n)).
Qed.

Lemma next_task_all_done σ :
  (next_task σ).2 = StopIteration AllDone →
  no_broken_pool (dag σ) ∧
  set_done (done σ ++ aborted_names (dag σ)) = set_all (dag σ).
Proof.
  intros Hstop.
  destruct (decide (some_broken_pool (dag σ))) as [Hb|Hnb].
  { rewrite (next_task_broken σ Hb) in Hstop. discriminate Hstop. }
  apply not_some_no_broken in Hnb. split; [done|].
  rewrite (next_task_no_broken σ Hnb) in Hstop.
  destruct (first_ready _ _); [done|]. by case_bool_decide.
Qed.

(** The three ways of a running poll. *)
Lemma poll_running σ :
  exited σ = None →
  dag (poll σ) = dag σ ∧ delivered (poll σ) = delivered σ ∧
  done (poll σ) = done σ ++ aborted_names (before_broken (dag σ)) ∧
  ((∃ n, (next_task σ).2 = ReturnTask n ∧ exited (poll σ) = None ∧
         started (poll σ) = started σ ++ [n] ∧
         future_mapping (poll σ)
         = future_mapping σ ++ [(length (future_mapping σ), n)]) ∨
   ((next_task σ).2 = ReturnNone ∧ exited (poll σ) = None ∧
    started (poll σ) = started σ ∧
    future_mapping (poll σ) = future_mapping σ) ∨
   (∃ site, (next_task σ).2 = StopIteration site ∧
            exited (poll σ) = Some site ∧
            started (poll σ) = started σ ∧
            future_mapping (poll σ) = future_mapping σ)).
Proof.
  intros Hrun. split; [apply poll_dag|]. split.
  { unfold poll. rewrite Hrun.
    destruct (next_task_frame σ) as (_ & _ & _ & Hdl & _).
    destruct (next_task σ) as [σ1 [t| |site]]; by simpl in *. }
  split; [by apply poll_done|].
  unfold poll. rewrite Hrun.
  destruct (next_task_frame σ) as (_ & Hs & Hfm & _ & Hx).
  destruct (next_task σ) as [σ1 [t| |site]]; simpl in *.
  - left. exists t. by rewrite Hs, Hfm, Hx.
  - right. left. by rewrite Hs, Hfm, Hx.
  - right. right. exists site. by rewrite Hs, Hfm.
Qed.

(** What a callback does to the state, by the outcome of its future. *)
Lemma callback_shape f t σ :
  lookup_future f (future_mapping σ) = Some t →
  (callback f σ).1 =
    match outcome_status f t with
    | Some s =>
        with_done (done σ ++ [t]) (with_dag (set_exec_status t s (dag σ)) σ)
    | None => σ
    end.
Proof.
  intros Hf. unfold callback, outcome_status. rewrite Hf.
  destruct (future_result f t) as [[s|r]|e]; [done..|].
  by destruct (isinstance_BrokenProcessPool e).
Qed.

Lemma aborted_status n d :
  NoDup (names d) → n ∈ aborted_names (before_broken d) →
  status_of n d = Some Aborted.
Proof.
  intros Hnd (t & Ht%before_broken_elem & <- & <-)%aborted_names_elem.
  by apply status_of_NoDup.
Qed.

Lemma poll_coherent σ : coherent σ → coherent (poll σ).
Proof.
  intros Hco. destruct (exited σ) as [site|] eqn:Hrun.
  { by rewrite (poll_exited σ site). }
  pose proof Hco as (Hnd & Hrec & Hnds & Hin & Hdl & Hun & Hset & _).
  destruct (poll_running σ Hrun) as (Hdag & Hdeliv & Hdone & Hcases).
  destruct (exec_recorded Poll σ (conj Hrec Hnds)) as [Hrec' Hnds'].
  pose proof (exec_in_dag Poll σ Hrec Hin) as Hin'. simpl in *.
  assert (∀ n, n ∈ started σ → n ∈ started (poll σ)) as Hmono.
  { intros n Hn. by apply (exec_started_mono Poll). }
  assert (∀ f n, (f, n) ∈ future_mapping σ → settled (poll σ) f n) as Hold.
  { intros f n Hfn. specialize (Hset f n Hfn). unfold settled in *.
    rewrite Hdag, Hdeliv, Hdone.
    destruct (if bool_decide (f ∈ delivered σ) then outcome_status f n
              else None) as [s|].
    - destruct Hset as [Hs Hd]. split; [done|]. apply elem_of_app. by left.
    - destruct Hset as [Hs Hd]. split; [done|].
      intros [?|Hab]%elem_of_app; [done|].
      apply (aborted_status _ _ Hnd) in Hab. congruence. }
  assert (unstarted_done (poll σ)) as Hun'.
  { intros n Hn Hns. rewrite Hdag. rewrite Hdone in Hn.
    apply elem_of_app in Hn as [Hn|Hab].
    - apply Hun; [done|]. intros ?. by apply Hns, Hmono.
    - exists Aborted. split; [by apply aborted_status|done]. }
  assert (NoDup (names (dag (poll σ)))) as Hnd' by by rewrite Hdag.
  assert (∀ f n, (f, n) ∈ future_mapping (poll σ) → settled (poll σ) f n)
    as Hset'.
  { destruct Hcases as [(n & Hret & _ & Hs & Hfm)|[(_ & _ & _ & Hfm)
                        |(site & _ & _ & _ & Hfm)]];
      rewrite Hfm; [|done..].
    intros f m [?|Hnew%list_elem_of_singleton]%elem_of_app; [by apply Hold|].
    injection Hnew as -> ->.
    apply next_task_returns in Hret as (t & Ht & <- & Hw & Hns).
    assert (status_of (name t) (dag σ) = Some WaitingExecution) as Hst.
    { by rewrite (status_of_NoDup t _ Hnd Ht), Hw. }
    unfold settled. rewrite Hdag, Hdeliv, Hdone.
    rewrite bool_decide_eq_false_2.
    2: { intros Hf%Hdl. lia. }
    split; [done|]. intros [Hd|Hab]%elem_of_app.
    - destruct (Hun _ Hd Hns) as (s & Hs' & Hfin).
      rewrite Hst in Hs'. injection Hs' as <-. done.
    - apply (aborted_status _ _ Hnd) in Hab. congruence. }
  split_and!; [done..| |done|done|].
  - intros f Hf. rewrite Hdeliv in Hf. apply Hdl in Hf.
    destruct Hcases as [(n & _ & _ & _ & ->)|[(_ & _ & _ & ->)
                        |(site & _ & _ & _ & ->)]]; [|done..].
    rewrite length_app. simpl. lia.
  - intros Hexit.
    destruct Hcases as [(n & _ & Hx & _)|[(_ & Hx & _)
                        |(site & Hret & Hx & Hs & Hfm)]]; [congruence..|].
    assert (site = AllDone) as -> by congruence.
    apply next_task_all_done in Hret as [Hnb Hall].
    rewrite (before_broken_id _ Hnb) in Hdone.
    assert (∀ n, n ∈ names (dag (poll σ)) → n ∈ done (poll σ)) as Hfull.
    { rewrite Hdag, Hdone. intros n Hn.
      by apply (proj1 (set_done_eq_set_all _ _) Hall). }
    split; [done|]. intros f n Hfn.
    pose proof (Hset' f n Hfn) as Hst.
    assert (n ∈ done (poll σ)) as Hd.
    { apply Hfull, Hin'. by apply (submitted_lookup (poll σ) f n). }
    unfold settled in Hst.
    destruct (bool_decide (f ∈ delivered (poll σ))) eqn:Hfd;
      [|by destruct Hst].
    apply bool_decide_eq_true in Hfd. split; [done|].
    unfold outcome_status in Hst.
    destruct (future_result f n) as [v|e]; [by exists v|].
    destruct (isinstance_BrokenProcessPool e); [|by destruct Hst].
    destruct Hst as [Hbroken%status_of_broken _]. rewrite Hdag in Hbroken.
    by destruct (no_broken_not_some _ Hnb).
Qed.

Lemma deliver_coherent f σ : coherent σ → coherent (deliver f σ).
Proof.
  intros Hco.
  pose proof Hco as (Hnd & Hrec & Hnds & Hin & Hdl & Hun & Hset & Hall).
  destruct (exec_recorded (Complete f) σ (conj Hrec Hnds)) as [Hrec' Hnds'].
  pose proof (exec_in_dag (Complete f) σ Hrec Hin) as Hin'.
  pose proof (exec_names (Complete f) σ) as Hnames.
  destruct (deliver_frame f σ) as (Hs & Hfm & Hx). simpl in *.
  unfold deliver in *.
  destruct (lookup_future f (future_mapping σ)) as [t|] eqn:Hf; [|done].
  case_bool_decide as Hfd; [done|].
  pose proof (lookup_future_elem _ _ _ Hf) as Hft.
  destruct (submitted_lookup σ f t Hrec Hft) as (_ & Hlt & Hts).
  pose proof (callback_shape f t σ Hf) as Hshape.
  destruct (callback_frame f σ) as (_ & _ & Hcd & _).
  set (σ' := with_delivered (delivered σ ++ [f]) (callback f σ).1) in *.
  assert (delivered σ' = delivered σ ++ [f]) as Hdeliv by done.
  assert (dag σ' = dag (callback f σ).1) as Hdag by done.
  assert (done σ' = done (callback f σ).1) as Hdone by done.
  assert (t ∈ names (dag σ)) as Htn by by apply Hin.
  assert (∀ n, n ≠ t → status_of n (dag σ') = status_of n (dag σ)) as Hother.
  { intros n Hne. rewrite Hdag, Hshape.
    destruct (outcome_status f t); [|done]. simpl.
    by apply status_of_set_ne. }
  assert (∀ n, n ∈ done σ → n ∈ done σ') as Hdmono.
  { intros n Hn. rewrite Hdone, Hshape.
    destruct (outcome_status f t); [|done]. simpl. apply elem_of_app. by left. }
  assert (∀ n, n ≠ t → n ∈ done σ' → n ∈ done σ) as Hdother.
  { intros n Hne. rewrite Hdone, Hshape.
    destruct (outcome_status f t); [|done]. simpl.
    intros [?|Hn%list_elem_of_singleton]%elem_of_app; done. }
  split_and!; [by rewrite Hnames|done..| | | |].
  - intros g. rewrite Hdeliv, Hfm.
    intros [?%Hdl|Hg%list_elem_of_singleton]%elem_of_app; [done|by subst g].
  - intros n Hn Hns. rewrite Hs in Hns.
    assert (n ≠ t) as Hne by (by intros ->).
    rewrite (Hother n Hne). apply Hun; [by apply Hdother|done].
  - rewrite Hfm. intros g n Hgn.
    destruct (decide (g = f)) as [->|Hgf].
    + assert (n = t) as ->.
      { destruct (submitted_lookup σ f n Hrec Hgn) as (Hl & _). congruence. }
      specialize (Hset f t Hgn). unfold settled in *.
      rewrite bool_decide_eq_false_2 in Hset by done.
      rewrite bool_decide_eq_true_2.
      2: { rewrite Hdeliv. apply elem_of_app. right. left. }
      rewrite Hdag, Hdone, Hshape.
      destruct (outcome_status f t) as [s|]; [|done]. simpl.
      split; [by apply status_of_set_eq|]. apply elem_of_app. right. left.
    + assert (n ≠ t) as Hne.
      { intros ->. destruct Hrec as [Htasks _]. apply Hgf.
        apply (snd_injective_NoDup (future_mapping σ) g f t); [|done..].
        by rewrite Htasks. }
      specialize (Hset g n Hgn). unfold settled in *.
      rewrite (Hother n Hne).
      assert (bool_decide (g ∈ delivered σ') = bool_decide (g ∈ delivered σ))
        as ->.
      { apply bool_decide_ext. rewrite Hdeliv, elem_of_app.
        rewrite list_elem_of_singleton.
        split; [intros [?|?]; [done|congruence]|by left]. }
      destruct (if bool_decide (g ∈ delivered σ) then outcome_status g n
                else None); destruct Hset as [Hst Hd]; split; [done| |done|].
      * by apply Hdmono.
      * intros Hd'. by apply Hd, Hdother.
  - rewrite Hx, Hfm, Hnames. intros [Hfull Hres]%Hall. split.
    + intros n Hn. by apply Hdmono, Hfull.
    + intros g n Hgn. destruct (Hres g n Hgn) as [Hg Hv]. split; [|done].
      rewrite Hdeliv. apply elem_of_app. by left.
Qed.

Lemma derived_coherent m s σ :
  env_ok (Derived m s) σ = true →
  coherent σ → coherent (with_dag (set_exec_status m s (dag σ)) σ).
Proof.
  intros [Hms Hmd]%andb_true_iff Hco.
  apply bool_decide_eq_true in Hms.
  pose proof Hco as (Hnd & Hrec & Hnds & Hin & Hdl & Hun & Hset & Hall).
  pose proof (exec_in_dag (Derived m s) σ Hrec Hin) as Hin'. simpl in *.
  assert (∀ n, n ∈ started σ →
               status_of n (set_exec_status m s (dag σ))
               = status_of n (dag σ)) as Hother.
  { intros n Hn. apply status_of_set_ne. by intros ->. }
  unfold coherent, unstarted_done. simpl. rewrite names_set_exec_status.
  split_and!; [done..| | |done].
  - intros n Hn Hns. destruct (Hun n Hn Hns) as (s0 & Hs0 & Hfin).
    destruct (decide (m = n)) as [->|Hne].
    + apply orb_true_iff in Hmd as [Hmd|Hmd];
        apply bool_decide_eq_true in Hmd; [done|].
      exists s0. split; [|done].
      rewrite status_of_set_eq by (by apply (proj1 Hin)). congruence.
    + exists s0. split; [|done]. by rewrite status_of_set_ne.
  - intros f n Hfn. specialize (Hset f n Hfn). unfold settled in *. simpl.
    rewrite Hother; [done|]. by apply (submitted_lookup σ f n).
Qed.

Lemma exec_coherent e σ :
  env_ok e σ = true → coherent σ → coherent (exec e σ).
Proof.
  destruct e as [|f|m s]; simpl; intros Hok Hco.
  - by apply poll_coherent.
  - by apply deliver_coherent.
  - by apply derived_coherent.
Qed.

Lemma run_events_coherent evs σ :
  well_behaved evs σ = true → coherent σ → coherent (run_events evs σ).
Proof.
  revert σ. induction evs as [|e evs IH]; intros σ Hwb Hco; [done|].
  simpl in *. apply andb_true_iff in Hwb as [Hok Hwb].
  apply IH; [done|]. by apply exec_coherent.
Qed.

Lemma init_coherent d : NoDup (names d) → coherent (init d).
Proof.
  intros Hnd. destruct (init_recorded d) as [Hrec Hnds].
  split_and!; [done..|apply init_in_dag| | | |done].
  - by intros f ?%elem_of_nil.
  - simpl. intros n (t & -> & Ht)%list_elem_of_fmap _.
    apply list_elem_of_filter in Ht as [Hup Ht].
    exists (exec_status t). split; [by apply status_of_NoDup|].
    unfold up_to_date in Hup. unfold finished_unstarted.
    by destruct (exec_status t).
  - by intros f n ?%elem_of_nil.
Qed.

Lemma well_behaved_app evs1 evs2 σ :
  well_behaved (evs1 ++ evs2) σ
  = well_behaved evs1 σ && well_behaved evs2 (run_events evs1 σ).
Proof.
  revert σ. induction evs1 as [|e evs1 IH]; intros σ; simpl; [done|].
  by rewrite IH, andb_assoc.
Qed.

Lemma well_behaved_completes fs σ : well_behaved (Complete <$> fs) σ = true.
Proof. revert σ. induction fs as [|f fs IH]; intros σ; simpl; [done|apply IH]. Qed.

Lemma Parallel_call_coherent d evs σ r :
  NoDup (names d) → well_behaved evs (init d) = true →
  Parallel_call d evs = Some (σ, r) → coherent σ ∧ r = aggregate σ.
Proof.
  intros Hnd Hwb (-> & _ & fs & ->)%Parallel_call_inv. split; [|done].
  apply run_events_coherent; [|by apply init_coherent].
  by rewrite well_behaved_app, Hwb, well_behaved_completes.
Qed.

(** X3.  In a run on a DAG with distinct names in which the task model
    only derives the status of tasks that have not been started and leaves
    the tasks in [done] as they are, a submitted task keeps the status
    [WaitingExecution] and stays outside [done] until the callback of its
    future has run.  From then on it is in [done] with the status of the
    outcome ([BrokenProcessPool], [Errored] or the status returned), unless
    the callback was left by an exception: then the task stays
    [WaitingExecution] and outside [done]. *)
Theorem submitted_task_settled (d : DAG) (evs : list Event) f n :
  NoDup (names d) → well_behaved evs (init d) = true →
  (f, n) ∈ future_mapping (run_events evs (init d)) →
  (f ∉ delivered (run_events evs (init d)) →
     status_of n (dag (run_events evs (init d))) = Some WaitingExecution ∧
     n ∉ done (run_events evs (init d))) ∧
  (f ∈ delivered (run_events evs (init d)) →
     match outcome_status f n with
     | Some s =>
         status_of n (dag (run_events evs (init d))) = Some s ∧
         n ∈ done (run_events evs (init d))
     | None =>
         status_of n (dag (run_events evs (init d))) = Some WaitingExecution ∧
         n ∉ done (run_events evs (init d))
     end).
Proof.
  intros Hnd Hwb Hfn.
  destruct (run_events_coherent evs (init d) Hwb (init_coherent d Hnd))
    as (_ & _ & _ & _ & _ & _ & Hset & _).
  specialize (Hset f n Hfn). unfold settled in Hset.
  split; intros Hf.
  - by rewrite bool_decide_eq_false_2 in Hset.
  - by rewrite bool_decide_eq_true_2 in Hset.
Qed.

(** X4.  In such a run, a task that is in [done] without ever having been
    submitted is [Executed], [Skipped] or [Aborted]. *)
Theorem unstarted_done_finished (d : DAG) (evs : list Event) n :
  NoDup (names d) → well_behaved evs (init d) = true →
  n ∈ done (run_events evs (init d)) →
  n ∉ started (run_events evs (init d)) →
  status_of n (dag (run_events evs (init d))) = Some Executed ∨
  status_of n (dag (run_events evs (init d))) = Some Skipped ∨
  status_of n (dag (run_events evs (init d))) = Some Aborted.
Proof.
  intros Hnd Hwb Hn Hns.
  destruct (run_events_coherent evs (init d) Hwb (init_coherent d Hnd))
    as (_ & _ & _ & _ & _ & Hun & _).
  destruct (Hun n Hn Hns) as (s & -> & Hfin).
  destruct s; try discriminate Hfin; auto.
Qed.

(** X5.  When such a run ends with every task of the DAG in [done], as it
    does whenever the loop was left at the all-done site of [next_task]:
    the callback of every submitted future has run and has written the
    status of its task, so the result of the future was a value or the
    fault of a collapsed pool, and the status is the one returned, [Errored]
    for an [ExceptionResult], [BrokenProcessPool] for the fault; every task
    that was not submitted is [Executed], [Skipped] or [Aborted]; and
    [__call__] returns, or raises the aggregate error with the failures in
    the order of submission (then some task is [Errored]), or raises the
    [BrokenProcessPool] of [get_future_result] for a submitted task whose
    status is [BrokenProcessPool]. *)
Theorem normal_stop (d : DAG) (evs : list Event) σ r :
  NoDup (names d) → well_behaved evs (init d) = true →
  Parallel_call d evs = Some (σ, r) →
  (exited σ = Some AllDone → ∀ n, n ∈ names d → n ∈ done σ) ∧
  ((∀ n, n ∈ names d → n ∈ done σ) →
   (∀ f n, (f, n) ∈ future_mapping σ →
      f ∈ delivered σ ∧
      ∃ s, outcome_status f n = Some s ∧ status_of n (dag σ) = Some s) ∧
   (∀ n, n ∈ names d → n ∉ started σ →
      ∃ s, status_of n (dag σ) = Some s ∧ finished_unstarted s = true) ∧
   (r = ReturnsNone ∨
    (r = RaisesDAGBuildError (failures (future_mapping σ)) ∧
     ∃ n, status_of n (dag σ) = Some Errored) ∨
    (∃ f n, (f, n) ∈ future_mapping σ ∧
            r = RaisesOther
                  (mkExc BrokenProcessPoolError ("Broken pool " +:+ str n)) ∧
            status_of n (dag σ) = Some BrokenProcessPool))).
Proof.
  intros Hnd Hwb Hcall.
  pose proof (Parallel_call_inv d evs σ r Hcall) as (_ & _ & fs & Hσ).
  assert (names (dag σ) = names d) as Hnames.
  { by rewrite Hσ, run_events_names. }
  destruct (Parallel_call_coherent d evs σ r Hnd Hwb Hcall)
    as [(_ & Hrec & _ & Hin & _ & Hun & Hset & Hall) ->].
  split.
  { intros Hexit. destruct (Hall Hexit) as [Hfull _].
    by rewrite Hnames in Hfull. }
  intros Hfull.
  assert (∀ f n, (f, n) ∈ future_mapping σ →
     f ∈ delivered σ ∧
     ∃ s, outcome_status f n = Some s ∧ status_of n (dag σ) = Some s)
    as Hstatus.
  { intros f n Hfn.
    assert (n ∈ done σ) as Hdone.
    { apply Hfull. rewrite <-Hnames. apply (proj2 Hin).
      destruct Hrec as [<- _]. apply list_elem_of_fmap. by exists (f, n). }
    specialize (Hset f n Hfn). unfold settled in Hset.
    case_bool_decide as Hf; [|by destruct Hset].
    destruct (outcome_status f n) as [s|]; [|by destruct Hset].
    split; [done|]. exists s. by destruct Hset. }
  split_and!; [done| |].
  - intros n Hn Hns. by apply Hun; [apply Hfull|].
  - assert (NoDup (future_mapping σ).*1) as Hndf.
    { destruct Hrec as [_ ->]. apply NoDup_seq. }
    destruct (aggregate_cases σ Hndf)
      as [(_ & Hfail & ->)|[(_ & _ & ->)|(_ & e & Hr)]].
    + right. left. split; [done|].
      apply Exists_exists in Hfail as ([f n] & Hfn & x & Hx). simpl in Hx.
      exists n. destruct (Hstatus f n Hfn) as (_ & s & Hs & ->).
      unfold outcome_status in Hs. rewrite Hx in Hs. by injection Hs as <-.
    + by left.
    + right. right. rewrite Hr. unfold aggregate in Hr.
      destruct (collect _ _) as [exps|e'] eqn:Hc;
        [by destruct (collector_bool exps)|].
      injection Hr as ->.
      apply collect_raises_inv in Hc as ([f n] & Hfn & He).
      2:{ intros [g t] Hgt. by apply lookup_future_NoDup. }
      simpl in He. exists f, n. split; [done|].
      destruct (Hstatus f n Hfn) as (_ & s & Hs & ->).
      unfold outcome_status in Hs.
      destruct (future_result f n) as [v|e'] eqn:Hres; [done|].
      destruct (isinstance_BrokenProcessPool e'); [|done].
      injection Hs as <-. by subst e.
Qed.

(** X6.  A build that raises an exception which is not an instance of
    [Exception] keeps [__call__] from ever ending.  In a run of the kind
    above in which the pool does not collapse and nothing but the pool
    could set [BrokenProcessPool], once the task of such a build has been
    submitted the loop is still running after any events: its callback is
    left by the exception before [done.append], so the all-done test never
    holds, and no [BrokenProcessPool] status ever stops the loop. *)
Theorem escaped_exception_hangs (d : DAG) (evs : list Event) f n e :
  NoDup (names d) → no_broken_pool d →
  (∀ g, pool_broken g = false) →
  (∀ t, build t kwargs ≠ Returns BrokenProcessPool) →
  well_behaved evs (init d) = true →
  Forall (λ e, derives_broken e = false) evs →
  (f, n) ∈ future_mapping (run_events evs (init d)) →
  build n kwargs = Raises e → isinstance_Exception e = false →
  Parallel_call d evs = None.
Proof.
  intros Hnd Hnb Hpool Hbuild Hwb Hder Hfn Hraise Hexc.
  unfold Parallel_call.
  destruct (exited (run_events evs (init d))) as [[|]|] eqn:Hx; [| |done].
  - exfalso.
    destruct (run_events_accounted evs (init d) Hbuild Hder
                (init_accounted d Hnb)) as [_ Hbroken].
    apply Hbroken, Exists_exists in Hx as (ft & _ & Hft).
    by rewrite Hpool in Hft.
  - exfalso.
    destruct (run_events_coherent evs (init d) Hwb (init_coherent d Hnd))
      as (_ & _ & _ & _ & _ & _ & _ & Hall).
    destruct (Hall Hx) as [_ Hres].
    destruct (Hres f n Hfn) as [_ (v & Hv)].
    unfold future_result, TaskBuildWrapper_call in Hv. simpl in Hv.
    by rewrite Hpool, Hraise, Hexc in Hv.
Qed.

(** *** The end of the [with] block *)

Lemma exec_delivered_mono e σ f :
  f ∈ delivered σ → f ∈ delivered (exec e σ).
Proof.
  intros Hf. destruct e as [|g|m s]; simpl; [| |done].
  - destruct (exited σ) as [site|] eqn:Hx.
    + by rewrite (poll_exited σ site).
    + by destruct (poll_running σ Hx) as (_ & -> & _).
  - unfold deliver. destruct (lookup_future _ _); [|done].
    case_bool_decide; [done|]. simpl. apply elem_of_app. by left.
Qed.

Lemma deliver_delivered f t σ :
  lookup_future f (future_mapping σ) = Some t → f ∈ delivered (deliver f σ).
Proof.
  intros Hf. unfold deliver. rewrite Hf.
  case_bool_decide; [done|]. simpl. apply elem_of_app. right. left.
Qed.

Lemma deliver_all (l : list (Future * string)) σ (ft : Future * string) :
  ft ∈ l →
  is_Some (lookup_future ft.1 (future_mapping σ)) →
  ft.1 ∈ delivered (foldl (λ σ ft, deliver ft.1 σ) σ l).
Proof.
  revert σ. induction l as [|[g m] l IH]; intros σ; [by intros ?%elem_of_nil|].
  simpl. intros [->|Hin]%elem_of_cons Hsome.
  - destruct Hsome as [t Ht].
    assert (g ∈ delivered (deliver g σ)) as Hg by by eapply deliver_delivered.
    clear IH Ht. revert Hg. generalize (deliver g σ). clear σ.
    induction l as [|[h k] l IH]; intros σ Hg; [done|]. simpl.
    apply IH. by apply (exec_delivered_mono (Complete h)).
  - apply IH; [done|]. by destruct (deliver_frame g σ) as (_ & -> & _).
Qed.

Lemma deliver_list_frame (l : list (Future * string)) σ :
  future_mapping (foldl (λ σ ft, deliver ft.1 σ) σ l) = future_mapping σ.
Proof.
  revert σ. induction l as [|[g m] l IH]; intros σ; [done|]. simpl.
  rewrite IH. by destruct (deliver_frame g σ) as (_ & -> & _).
Qed.

Lemma shutdown_delivers σ f m :
  submissions_recorded σ →
  (f, m) ∈ future_mapping (shutdown σ) → f ∈ delivered (shutdown σ).
Proof.
  intros Hrec. unfold shutdown. rewrite deliver_list_frame. intros Hfm.
  apply (deliver_all _ σ (f, m) Hfm). simpl.
  destruct (submitted_lookup σ f m Hrec Hfm) as (-> & _). by eexists.
Qed.

(** X7.  When [__call__] gets to the aggregation, by either way out of the
    loop, the callback of every submitted future has run.  In a run of the
    kind above, every submitted task then has the status of its outcome,
    or is still [WaitingExecution] when its callback was left by an
    exception. *)
Theorem callbacks_done_at_end (d : DAG) (evs : list Event) σ r :
  Parallel_call d evs = Some (σ, r) →
  (∀ f n, (f, n) ∈ future_mapping σ → f ∈ delivered σ) ∧
  (NoDup (names d) → well_behaved evs (init d) = true →
   ∀ f n, (f, n) ∈ future_mapping σ →
          status_of n (dag σ)
          = Some (default WaitingExecution (outcome_status f n))).
Proof.
  intros Hcall.
  assert (∀ f n, (f, n) ∈ future_mapping σ → f ∈ delivered σ) as Hall.
  { revert Hcall. unfold Parallel_call.
    destruct (exited (run_events evs (init d))) as [site|]; [|done].
    intros [= <- _] f n. apply shutdown_delivers.
    apply run_events_recorded, init_recorded. }
  split; [done|]. intros Hnd Hwb f n Hfn.
  destruct (Parallel_call_coherent d evs σ r Hnd Hwb Hcall)
    as [(_ & _ & _ & _ & _ & _ & Hset & _) _].
  specialize (Hset f n Hfn). unfold settled in Hset.
  rewrite bool_decide_eq_true_2 in Hset by by apply (Hall f n).
  by destruct (outcome_status f n); destruct Hset.
Qed.

(** *** Which exception leaves the aggregation *)

Lemma collect_first_raise before f t after fm e :
  (∀ ft, ft ∈ before ++ (f, t) :: after →
         lookup_future ft.1 fm = Some ft.2) →
  Forall result_returns before → future_result f t = Raises e →
  collect (before ++ (f, t) :: after) fm =
    Raises (if isinstance_BrokenProcessPool e
            then mkExc BrokenProcessPoolError ("Broken pool " +:+ str t)
            else e).
Proof.
  intros Hfm Hret Hraise.
  induction Hret as [|[g m] before (v & Hv) _ IH]; simpl in *.
  - rewrite (get_future_result_found f t) by (apply (Hfm (f, t)); left).
    rewrite Hraise. by destruct (isinstance_BrokenProcessPool e).
  - rewrite (get_future_result_found g m) by (apply (Hfm (g, m)); left).
    rewrite Hv. rewrite IH by (intros ft Hft; apply Hfm; by right).
    by destruct v.
Qed.

(** X8.  Of the submitted futures whose result raises, the one submitted
    first decides how [__call__] ends: its exception leaves the call, as
    [BrokenProcessPool('Broken pool <task>')] for the fault of the pool and
    unchanged otherwise, and the [ExceptionResult]s of the futures before
    it are dropped. *)
Theorem first_raise_wins (d : DAG) (evs : list Event) σ r
    before f t after e :
  Parallel_call d evs = Some (σ, r) →
  future_mapping σ = before ++ (f, t) :: after →
  Forall result_returns before → future_result f t = Raises e →
  r = RaisesOther
        (if isinstance_BrokenProcessPool e
         then mkExc BrokenProcessPoolError ("Broken pool " +:+ str t)
         else e).
Proof.
  intros (-> & (_ & Hids) & _)%Parallel_call_inv Hfm Hret Hraise.
  assert (∀ ft, ft ∈ future_mapping σ →
                lookup_future ft.1 (future_mapping σ) = Some ft.2) as Hlook.
  { intros [g m] Hft. apply lookup_future_NoDup; [|done].
    rewrite Hids. apply NoDup_seq. }
  unfold aggregate. rewrite Hfm at 1.
  rewrite (collect_first_raise before f t after _ e); [done| |done..].
  by rewrite <-Hfm.
Qed.

(** *** What the loop never takes back *)

Lemma exec_grows e σ :
  done σ `prefix_of` done (exec e σ) ∧
  started σ `prefix_of` started (exec e σ) ∧
  future_mapping σ `prefix_of` future_mapping (exec e σ) ∧
  delivered σ `prefix_of` delivered (exec e σ) ∧
  (∀ site, exited σ = Some site → exited (exec e σ) = Some site).
Proof.
  destruct e as [|f|m s]; simpl; [| |done].
  - destruct (exited σ) as [site|] eqn:Hx.
    { rewrite (poll_exited σ site Hx). split_and!; [done..|].
      intros ? [= <-]. exact Hx. }
    destruct (poll_running σ Hx) as (_ & -> & -> & Hcases).
    split; [by apply prefix_app_r|].
    destruct Hcases as [(n & _ & _ & -> & ->)|[(_ & _ & -> & ->)
                        |(site & _ & _ & -> & ->)]];
      split_and!; try done; by apply prefix_app_r.
  - destruct (deliver_frame f σ) as (-> & -> & ->).
    split_and!; [|done..| |done]; unfold deliver;
      (destruct (lookup_future _ _) as [t|]; [|done]);
      (case_bool_decide; [done|]); simpl; [|by apply prefix_app_r].
    destruct (callback_done f σ) as [->|(t' & _ & ->)]; [done|].
    by apply prefix_app_r.
Qed.

(** X9.  The loop only appends: along any events, from any state, [done],
    [started], [future_mapping] and the futures whose callback has run keep
    what they hold, in order, and once the loop has been left at a site of
    [next_task] it stays left at that site. *)
Theorem bookkeeping_append_only (evs : list Event) σ :
  done σ `prefix_of` done (run_events evs σ) ∧
  started σ `prefix_of` started (run_events evs σ) ∧
  future_mapping σ `prefix_of` future_mapping (run_events evs σ) ∧
  delivered σ `prefix_of` delivered (run_events evs σ) ∧
  (∀ site, exited σ = Some site → exited (run_events evs σ) = Some site).
Proof.
  revert σ. induction evs as [|e evs IH]; intros σ; [done|]. simpl.
  destruct (exec_grows e σ) as (H1 & H2 & H3 & H4 & H5).
  destruct (IH (exec e σ)) as (I1 & I2 & I3 & I4 & I5).
  split_and!; [by etrans..|]. intros site Hx. by apply I5, H5.
Qed.

(** *** The log handler *)

Lemma handler_events_spec dir evs σ :
  handler_events dir evs σ =
    if truthy dir
       && bool_decide (exited σ = None)
       && bool_decide (exited (run_events evs σ) = Some AllDone)
    then [HandlerRemove] else [].
Proof.
  revert σ. induction evs as [|e evs IH]; intros σ.
  - simpl. destruct (truthy dir), (exited σ) as [[|]|]; done.
  - cbn [handler_events run_events foldl]. rewrite IH.
    fold (run_events evs (exec e σ)).
    destruct (exited σ) as [site|] eqn:Hx.
    + destruct (exec_after_exit e σ site Hx) as (Hx' & _).
      rewrite Hx'. rewrite !bool_decide_eq_false_2 by done.
      rewrite !andb_false_r. by destruct e.
    + rewrite (bool_decide_eq_true_2 (None = None)) by done.
      destruct e as [|f|m s]; cbn [exec].
      * destruct (poll_running σ Hx)
          as (_ & _ & _ & [(n & -> & -> & _)|[(-> & -> & _)
                           |(site & -> & Hx' & _)]]).
        -- by rewrite (bool_decide_eq_true_2 (None = None)).
        -- by rewrite (bool_decide_eq_true_2 (None = None)).
        -- rewrite Hx'.
           destruct (run_events_after_exit evs _ _ Hx') as (-> & _).
           rewrite (bool_decide_eq_false_2 (Some site = None)) by done.
           rewrite andb_false_r. unfold handler_next_task.
           destruct site, (truthy dir); done.
      * destruct (deliver_frame f σ) as (_ & _ & ->). rewrite Hx.
        by rewrite (bool_decide_eq_true_2 (None = None)).
      * simpl. rewrite Hx.
        by rewrite (bool_decide_eq_true_2 (None = None)).
Qed.

(** X10.  The calls made to the log handler by [__call__]: none without a
    logging directory; with one, [add] before the loop and [remove] once,
    when the loop is left at the all-done site of [next_task].  When the
    loop is left because a [BrokenProcessPool] status was seen, or is still
    running, [remove] has not been called. *)
Theorem handler_calls_spec (dir : option string) (d : DAG)
    (evs : list Event) :
  handler_calls dir d evs =
    if truthy dir then
      match exited (run_events evs (init d)) with
      | Some AllDone => [HandlerAdd; HandlerRemove]
      | _ => [HandlerAdd]
      end
    else [].
Proof.
  unfold handler_calls, handler_setup. rewrite handler_events_spec. simpl.
  destruct (truthy dir); simpl; [|done].
  by destruct (exited (run_events evs (init d))) as [[|]|].
Qed.

(** *** [get_future_result] on a submitted future *)

Lemma well_behaved_scheduler evs σ :
  Forall scheduler_event evs → well_behaved evs σ = true.
Proof.
  intros Hevs. revert σ.
  induction Hevs as [|e evs He _ IH]; intros σ; simpl; [done|].
  rewrite IH, andb_true_r. by destruct e.
Qed.

Lemma first_ready_nth d k t :
  NoDup (names d) → Forall (λ t, exec_status t = WaitingExecution) d →
  d !! k = Some t → first_ready d (take k (names d)) = Some t.
Proof.
  intros Hnd Hw Hk. apply first_ready_Some.
  exists (take k d), (drop (S k) d).
  assert (d = take k d ++ t :: drop (S k) d) as Hsplit.
  { by rewrite take_drop_middle. }
  split_and!; [done| |].
  - split.
    { apply (proj1 (Forall_forall _ _) Hw). by eapply list_elem_of_lookup_2. }
    unfold names in *. rewrite Hsplit in Hnd at 1.
    rewrite fmap_app, fmap_cons in Hnd.
    apply NoDup_app in Hnd as (_ & Hnot & _).
    rewrite <-fmap_take. intros Hin. apply (Hnot _ Hin). left.
  - intros u Hu [_ Hnot]. apply Hnot. unfold names. rewrite <-fmap_take.
    by apply list_elem_of_fmap_2.
Qed.

Lemma waiting_init d :
  Forall (λ t, exec_status t = WaitingExecution) d →
  init d = mkState d [] [] [] [] 0 None.
Proof.
  intros Hw. unfold init. f_equal.
  induction Hw as [|t ts Ht _ IH]; [done|].
  rewrite filter_cons_False; [done|]. unfold up_to_date. by rewrite Ht.
Qed.

Lemma waiting_no_aborted d :
  Forall (λ t, exec_status t = WaitingExecution) d →
  no_broken_pool d ∧ aborted_names d = [].
Proof.
  intros Hw. split.
  - eapply Forall_impl; [exact Hw|]. intros t Ht. by rewrite Ht.
  - unfold aborted_names. induction Hw as [|t ts Ht _ IH]; [done|].
    rewrite filter_cons_False; [done|]. by rewrite Ht.
Qed.

(** After [k] polls the first [k] tasks are submitted, in the order of the
    DAG. *)
Lemma polls_submit d k :
  NoDup (names d) → Forall (λ t, exec_status t = WaitingExecution) d →
  k ≤ length d →
  dag (run_events (replicate k Poll) (init d)) = d ∧
  done (run_events (replicate k Poll) (init d)) = [] ∧
  started (run_events (replicate k Poll) (init d)) = take k (names d) ∧
  length (future_mapping (run_events (replicate k Poll) (init d))) = k ∧
  exited (run_events (replicate k Poll) (init d)) = None.
Proof.
  intros Hnd Hw. destruct (waiting_no_aborted d Hw) as [Hnb Hab].
  induction k as [|k IH]; intros Hk.
  - by rewrite (waiting_init d Hw).
  - destruct IH as (Hdag & Hdone & Hstarted & Hlen & Hx); [lia|].
    rewrite replicate_S_end, run_events_app. simpl.
    set (σ := run_events (replicate k Poll) (init d)) in *.
    destruct (lookup_lt_is_Some_2 d k) as [t Ht]; [lia|].
    assert ((next_task σ).2 = ReturnTask (name t)) as Hret.
    { rewrite next_task_no_broken by by rewrite Hdag.
      by rewrite Hdag, Hstarted, (first_ready_nth d k t). }
    destruct (poll_running σ Hx)
      as (-> & _ & -> & [(n & Hn & -> & -> & ->)|[(Hn & _)|(site & Hn & _)]]);
      [|congruence..].
    rewrite Hdag, Hdone, Hstarted, (before_broken_id _ Hnb), Hab.
    split_and!; [done..| | |done].
    + assert (n = name t) as -> by congruence.
      unfold names. erewrite take_S_r; [done|].
      by rewrite list_lookup_fmap, Ht.
    + rewrite length_app. simpl. lia.
Qed.

Lemma completes_frame evs σ :
  Forall (λ e, ∃ f, e = Complete f) evs →
  started (run_events evs σ) = started σ ∧
  exited (run_events evs σ) = exited σ.
Proof.
  intros Hevs. revert σ.
  induction Hevs as [|e evs (f & ->) _ IH]; intros σ; [done|]. simpl.
  destruct (IH (deliver f σ)) as (-> & ->).
  by destruct (deliver_frame f σ) as (-> & _ & ->).
Qed.

Lemma outcome_healthy f m :
  pool_broken f = false →
  (∀ e, build m kwargs = Raises e → isinstance_Exception e = true) →
  outcome_status f m
  = Some (match build m kwargs with Returns s => s | Raises _ => Errored end)
  ∧ (result_failed (f, m) ↔ ∃ e, build m kwargs = Raises e)
  ∧ result_returns (f, m).
Proof.
  intros Hb Hexc.
  unfold outcome_status, result_failed, result_returns, future_result,
    TaskBuildWrapper_call. simpl. rewrite Hb.
  destruct (build m kwargs) as [s|e] eqn:Hbuild.
  - split_and!; [done| |by eexists]. split; intros (? & ?); done.
  - rewrite (Hexc e eq_refl). split_and!; [done| |by eexists].
    split; intros _; by eexists.
Qed.

(** X12.  A DAG of independent tasks runs to the end.  For tasks with
    distinct names that all wait for execution, a pool that does not
    collapse and builds that do not return [BrokenProcessPool] and raise
    only instances of [Exception]: when the loop polls once per task, the
    callbacks of all futures run, and the loop polls again, the tasks have
    been submitted in the order of the DAG, the loop is left at the
    all-done site, every task has the status its build returned, or
    [Errored] when its build raised, and [__call__] returns exactly when no
    build raised (it raises the aggregate error otherwise). *)
Theorem independent_tasks_run (d : DAG) :
  NoDup (names d) → Forall (λ t, exec_status t = WaitingExecution) d →
  (∀ g, pool_broken g = false) →
  (∀ t, t ∈ names d → build t kwargs ≠ Returns BrokenProcessPool) →
  (∀ t e, t ∈ names d → build t kwargs = Raises e →
          isinstance_Exception e = true) →
  ∃ σ r,
    Parallel_call d (replicate (length d) Poll
                     ++ (Complete <$> seq 0 (length d)) ++ [Poll])
    = Some (σ, r) ∧
    exited σ = Some AllDone ∧ started σ = names d ∧
    (∀ t, t ∈ d →
          status_of (name t) (dag σ)
          = Some (match build (name t) kwargs with
                  | Returns s => s
                  | Raises _ => Errored
                  end)) ∧
    (r = ReturnsNone ↔ ∀ t, t ∈ d → ∃ s, build (name t) kwargs = Returns s) ∧
    (r ≠ ReturnsNone → r = RaisesDAGBuildError (failures (future_mapping σ))).
Proof.
  intros Hnd Hw Hpool Hbpp Hexc.
  set (evs := replicate (length d) Poll
              ++ (Complete <$> seq 0 (length d)) ++ [Poll]).
  assert (Forall scheduler_event evs) as Hsched.
  { subst evs. rewrite !Forall_app. split_and!.
    - by apply Forall_replicate.
    - apply Forall_fmap, Forall_forall. by intros.
    - by repeat constructor. }
  pose proof (well_behaved_scheduler evs (init d) Hsched) as Hwb.
  destruct (polls_submit d (length d) Hnd Hw (le_n _))
    as (Hdag1 & Hdone1 & Hstarted1 & Hlen1 & Hx1).
  set (σ1 := run_events (replicate (length d) Poll) (init d)) in *.
  assert (submissions_recorded σ1 ∧ NoDup (started σ1)) as [Hrec1 Hnds1].
  { apply run_events_recorded, init_recorded. }
  assert (run_events (Complete <$> seq 0 (length d)) σ1 = shutdown σ1) as Hσ2.
  { rewrite shutdown_run_events. destruct Hrec1 as [_ ->]. by rewrite Hlen1. }
  set (σ2 := shutdown σ1) in *.
  assert (run_events evs (init d) = poll σ2) as Hrun.
  { subst evs. by rewrite !run_events_app, <-Hσ2. }
  assert (coherent σ2) as Hco2.
  { rewrite <-Hσ2. unfold σ1. rewrite <-run_events_app.
    apply run_events_coherent; [|by apply init_coherent].
    apply well_behaved_scheduler. apply Forall_app. split.
    - by apply Forall_replicate.
    - apply Forall_fmap, Forall_forall. by intros. }
  pose proof Hco2 as (Hnd2 & Hrec2 & _ & Hin2 & _ & _ & Hset2 & _).
  assert (started σ2 = names d ∧ exited σ2 = None ∧ names (dag σ2) = names d)
    as (Hstarted2 & Hx2 & Hnames2).
  { rewrite <-Hσ2.
    destruct (completes_frame (Complete <$> seq 0 (length d)) σ1)
      as (-> & ->).
    - apply Forall_fmap, Forall_forall. intros f _. by exists f.
    - rewrite run_events_names, Hdag1, Hstarted1, Hx1.
      by rewrite firstn_all2 by (unfold names; by rewrite length_fmap). }
  assert (∀ n, n ∈ names d →
     ∃ f, (f, n) ∈ future_mapping σ2 ∧
          status_of n (dag σ2)
          = Some (match build n kwargs with
                  | Returns s => s | Raises _ => Errored end)
          ∧ n ∈ done σ2) as Hstatus2.
  { intros n Hn. rewrite <-Hstarted2 in Hn.
    destruct Hrec2 as [Htasks2 Hids2]. rewrite <-Htasks2 in Hn.
    apply list_elem_of_fmap in Hn as ([f m] & -> & Hfm). simpl.
    exists f. split; [done|].
    specialize (Hset2 f m Hfm). unfold settled in Hset2.
    rewrite bool_decide_eq_true_2 in Hset2
      by by apply (shutdown_delivers σ1 f m).
    assert (m ∈ names d) as Hm.
    { rewrite <-Hstarted2, <-Htasks2.
      by apply (list_elem_of_fmap_2 snd _ (f, m)). }
    destruct (outcome_healthy f m (Hpool f) (λ e, Hexc m e Hm)) as (Hout & _).
    by rewrite Hout in Hset2. }
  assert ((next_task σ2).2 = StopIteration AllDone) as Hstop.
  { assert (no_broken_pool (dag σ2)) as Hnb.
    { apply Forall_forall. intros t Ht Hs.
      assert (name t ∈ names d) as Hn.
      { rewrite <-Hnames2. by apply list_elem_of_fmap_2. }
      destruct (Hstatus2 _ Hn) as (f & _ & Hst & _).
      rewrite (status_of_NoDup t _ Hnd2 Ht), Hs in Hst.
      injection Hst as Hst.
      destruct (build (name t) kwargs) as [s|e] eqn:Hb; [|done].
      destruct (Hbpp (name t) Hn). by rewrite Hb, <-Hst. }
    rewrite (next_task_no_broken σ2 Hnb).
    assert (first_ready (dag σ2) (started σ2) = None) as ->.
    { apply first_ready_None. intros u Hu [_ Hnot]. apply Hnot.
      rewrite Hstarted2, <-Hnames2. by apply list_elem_of_fmap_2. }
    rewrite bool_decide_eq_true_2; [done|].
    apply set_done_eq_set_all. intros n. rewrite Hnames2. split.
    - intros [Hn|Hn]%elem_of_app.
      + rewrite <-Hnames2. by apply (proj1 Hin2).
      + apply aborted_names_elem in Hn as (t & Ht & <- & _).
        rewrite <-Hnames2. by apply list_elem_of_fmap_2.
    - intros Hn. apply elem_of_app. left.
      by destruct (Hstatus2 n Hn) as (_ & _ & _ & ?). }
  assert (exited (poll σ2) = Some AllDone ∧ started (poll σ2) = names d)
    as [Hx3 Hstarted3].
  { destruct (poll_running σ2 Hx2)
      as (_ & _ & _ & [(n & Hn & _)|[(Hn & _)|(site & Hn & -> & -> & _)]]);
      [congruence..|]. split; [congruence|done]. }
  destruct (Parallel_call d evs) as [[σ r]|] eqn:Hcall.
  2: { unfold Parallel_call in Hcall. by rewrite Hrun, Hx3 in Hcall. }
  exists σ, r. split; [done|].
  assert (exited σ = Some AllDone ∧ started σ = names d) as [Hx Hstarted].
  { revert Hcall. unfold Parallel_call. rewrite Hrun, Hx3.
    intros [= <- _]. rewrite shutdown_run_events.
    destruct (run_events_after_exit
                (Complete <$> (future_mapping (poll σ2)).*1) _ _ Hx3)
      as (-> & -> & _). done. }
  destruct (Parallel_call_coherent d evs σ r Hnd Hwb Hcall)
    as [(Hndσ & Hrec & _ & _ & _ & _ & Hset & Hall) ->].
  destruct (Hall Hx) as [_ Hres].
  assert (∀ n, n ∈ names d → ∃ f, (f, n) ∈ future_mapping σ) as Hsub.
  { intros n Hn. rewrite <-Hstarted in Hn.
    destruct Hrec as [Htasks _]. rewrite <-Htasks in Hn.
    apply list_elem_of_fmap in Hn as ([f m] & -> & Hfm). by exists f. }
  assert (Forall result_returns (future_mapping σ)) as Hret.
  { apply Forall_forall. intros [f m] Hfm.
    by destruct (Hres f m Hfm) as [_ ?]. }
  assert (NoDup (future_mapping σ).*1) as Hndf.
  { destruct Hrec as [_ ->]. apply NoDup_seq. }
  assert (Exists result_failed (future_mapping σ)
          ↔ ∃ t e, t ∈ d ∧ build (name t) kwargs = Raises e) as Hfailed.
  { rewrite Exists_exists. split.
    - intros ([f m] & Hfm & Hfail).
      assert (m ∈ names d) as Hm.
      { rewrite <-Hstarted. by apply (submitted_lookup σ f m). }
      destruct (outcome_healthy f m (Hpool f) (λ e, Hexc m e Hm))
        as (_ & Hiff & _).
      apply Hiff in Hfail as (e & He).
      apply list_elem_of_fmap in Hm as (t & -> & Ht).
      by exists t, e.
    - intros (t & e & Ht & He).
      assert (name t ∈ names d) as Hn by by apply list_elem_of_fmap_2.
      destruct (Hsub (name t) Hn) as (f & Hfm).
      exists (f, name t). split; [done|].
      destruct (outcome_healthy f (name t) (Hpool f)
                  (λ e, Hexc (name t) e Hn)) as (_ & Hiff & _).
      apply Hiff. by exists e. }
  split_and!; [done..| | |].
  - intros t Ht.
    assert (name t ∈ names d) as Hn by by apply list_elem_of_fmap_2.
    destruct (Hsub (name t) Hn) as (f & Hfm).
    destruct (Hres f _ Hfm) as [Hf _].
    specialize (Hset f _ Hfm). unfold settled in Hset.
    rewrite bool_decide_eq_true_2 in Hset by done.
    destruct (outcome_healthy f (name t) (Hpool f)
                (λ e, Hexc (name t) e Hn)) as (Hout & _).
    rewrite Hout in Hset. by destruct Hset.
  - destruct (aggregate_cases σ Hndf)
      as [(_ & Hfail & ->)|[(_ & Hnofail & ->)|(Hex & _)]].
    + split; [done|]. intros Hok. exfalso.
      apply Hfailed in Hfail as (t & e & Ht & He).
      destruct (Hok t Ht) as (s & Hs). congruence.
    + split; [|done]. intros _ t Ht.
      destruct (build (name t) kwargs) as [s|e] eqn:Hb; [by exists s|].
      destruct Hnofail. apply Hfailed. by exists t, e.
    + by destruct (returns_not_raises _ Hret).
  - destruct (aggregate_cases σ Hndf)
      as [(_ & _ & ->)|[(_ & _ & ->)|(Hex & _)]]; [done..|].
    by destruct (returns_not_raises _ Hret).
Qed.

End Executor.

(** ** The properties on the scenarios *)

Section Examples.

Import Scenario.

#[local] Abbreviation run_healthy :=
  (Parallel_call build repr str format_exc healthy ()).
#[local] Abbreviation run_collapsed :=
  (Parallel_call build repr str format_exc collapsed ()).

(** C2 as stated fails.  Two tasks wait; the first is submitted and the pool
    collapses, so that its callback marks it [BrokenProcessPool].  The second
    task is then the first ready task, yet the call raises [StopIteration]
    at the broken-pool site. *)
Lemma next_task_selects_counterexample :
  ¬ selects_first_ready
      (run_events build repr format_exc collapsed () [Poll; Complete 0]
         (init two_tasks)).
Proof.
  intros [Hfirst _].
  specialize (Hfirst (mkTask "boom" WaitingExecution)).
  assert ((next_task
             (run_events build repr format_exc collapsed ()
                [Poll; Complete 0] (init two_tasks))).2
          = StopIteration BrokenPoolSeen) as Hstop by reflexivity.
  rewrite Hstop in Hfirst. discriminate Hfirst.
  exists [mkTask "ok" BrokenProcessPool], []. split_and!.
  - reflexivity.
  - split; [reflexivity|]. apply (bool_decide_unpack _). vm_compute. exact I.
  - intros u ->%list_elem_of_singleton [Hs _]. discriminate Hs.
Qed.

(** C9 as stated fails.  Of three tasks the first is submitted and the pool
    collapses, so that its callback marks it [BrokenProcessPool]; the second
    is [Aborted].  The scan of the next call ends at the first task and the
    [Aborted] task behind it is not appended. *)
Lemma next_task_appends_aborted_counterexample :
  ¬ appends_every_aborted
      (run_events build repr format_exc collapsed () [Poll; Complete 0]
         (init three_tasks)).
Proof.
  unfold appends_every_aborted. vm_compute. intros Heq.
  apply (f_equal length) in Heq. discriminate Heq.
Qed.


(** C1 as stated fails.  The only task is submitted, the pool collapses, the
    callback marks the task [BrokenProcessPool] and the next poll leaves the
    loop: the run ends with a task in [BrokenProcessPool] and raises, but
    what it raises is the [BrokenProcessPool] of [get_future_result], not
    the aggregate error. *)
Lemma run_outcome_counterexample :
  ¬ aggregate_error_iff_failed
      (run_collapsed one_task [Poll; Complete 0; Poll]).
Proof.
  intros Hclaim.
  assert (run_collapsed one_task [Poll; Complete 0; Poll]
          = Some (mkState [mkTask "ok" BrokenProcessPool] ["ok"] ["ok"]
                          [(0, "ok")] [0] 0 (Some BrokenPoolSeen),
                  RaisesOther (mkExc BrokenProcessPoolError "Broken pool ok")))
    as Hrun by (vm_compute; reflexivity).
  destruct (Hclaim _ _ Hrun) as [_ Hraise].
  destruct Hraise as (exps & Hexps); [|discriminate Hexps].
  apply (bool_decide_unpack _). vm_compute. exact I.
Qed.

Lemma run_outcome_witness :
  (∃ σ r,
     run_healthy two_tasks [Poll; Poll; Complete 1; Complete 0; Poll]
     = Some (σ, r) ∧
     r = RaisesDAGBuildError
           [mkExceptionResult "Task(boom)"
              "Traceback (most recent call last): ValueError"] ∧
     ∀ exps, r = RaisesDAGBuildError exps →
             exps = failures build repr format_exc healthy ()
                      (future_mapping σ)) ∧
  (∃ σ r,
     run_collapsed two_tasks [Poll; Complete 0; Poll] = Some (σ, r) ∧
     exited σ = Some BrokenPoolSeen ∧ ∃ e, r = RaisesOther e).
Proof.
  split.
  - eexists _, _. split; [vm_compute; reflexivity|]. split; [reflexivity|].
    intros exps Hexps.
    eapply (run_outcome build repr str format_exc healthy () two_tasks
              [Poll; Poll; Complete 1; Complete 0; Poll]);
      [vm_compute; reflexivity|exact Hexps].
  - eexists _, _. split; [vm_compute; reflexivity|]. split; [reflexivity|].
    eapply (run_outcome build repr str format_exc collapsed () two_tasks
              [Poll; Complete 0; Poll]).
    + vm_compute. reflexivity.
    + apply (bool_decide_unpack _). vm_compute. exact I.
    + apply (bool_decide_unpack _). vm_compute. exact I.
    + intros t. unfold build. repeat case_decide; discriminate.
    + reflexivity.
Defined.

Lemma aborted_and_broken_absorbing_witness :
  NoDup (names three_tasks) ∧
  (next_task (run_events build repr format_exc collapsed ()
                [Poll; Complete 0] (init three_tasks))).2 ≠ ReturnTask "b" ∧
  future_mapping
    (run_events build repr format_exc collapsed () [Poll; Poll]
       (poll (run_events build repr format_exc collapsed ()
                [Poll; Complete 0] (init three_tasks))))
  = [(0, "ok")].
Proof.
  assert (NoDup (names three_tasks)) as Hnd.
  { apply (bool_decide_unpack _). vm_compute. exact I. }
  destruct (aborted_and_broken_absorbing build repr format_exc collapsed ()
              three_tasks [Poll; Complete 0] [Poll; Poll] _ "b"
              Hnd eq_refl eq_refl)
    as [Haborted Hbroken].
  destruct (Haborted eq_refl) as [Hnot _].
  destruct Hbroken as (_ & _ & Hfm).
  { apply (bool_decide_unpack _). vm_compute. exact I. }
  split_and!; [exact Hnd|exact Hnot|exact Hfm].
Defined.

Lemma callback_sets_status_witness :
  lookup_future 0 (future_mapping in_flight_and_aborted) = Some "a" ∧
  "a" ∈ names (dag in_flight_and_aborted) ∧
  status_of "a"
    (dag (callback build repr format_exc healthy () 0
            in_flight_and_aborted).1) = Some Executed ∧
  done (callback build repr format_exc healthy () 0 in_flight_and_aborted).1
  = ["a"].
Proof.
  assert ("a" ∈ names (dag in_flight_and_aborted)) as Hin.
  { apply (bool_decide_unpack _). vm_compute. exact I. }
  destruct (callback_sets_status build repr format_exc healthy ()
              in_flight_and_aborted 0 "a" eq_refl Hin) as (_ & _ & Hstatus).
  destruct (Hstatus Executed eq_refl) as (_ & Hs & Hd & _).
  split_and!; [reflexivity|exact Hin|exact Hs|exact Hd].
Defined.

(** C5 as stated fails: a build that calls [sys.exit] raises [SystemExit],
    which [except Exception] does not catch; it leaves the call. *)
Lemma TaskBuildWrapper_call_counterexample :
  ¬ captures_every_exception build repr format_exc (mkWrapper "exit") ().
Proof. unfold captures_every_exception. vm_compute. discriminate. Qed.

Lemma TaskBuildWrapper_call_witness :
  build "boom" () = Raises (mkExc OtherException "ValueError") ∧
  TaskBuildWrapper_call build repr format_exc (mkWrapper "boom") ()
  = Returns (ExcValue (mkExceptionResult (repr "boom")
                         (format_exc (mkExc OtherException "ValueError")))).
Proof.
  split; [reflexivity|].
  destruct (TaskBuildWrapper_call_outcome build repr format_exc
              (mkWrapper "boom") ()) as (_ & Hexc & _).
  exact (Hexc _ eq_refl eq_refl).
Defined.


Lemma fatal_stop_frame_witness :
  status_of "boom"
    (dag (shutdown build repr format_exc collapsed ()
            (run_events build repr format_exc collapsed ()
               [Poll; Complete 0]
               (poll (run_events build repr format_exc collapsed ()
                        [Poll; Complete 0] (init two_tasks))))))
  = Some WaitingExecution.
Proof.
  refine (eq_trans
            (proj2 (proj2
               (fatal_stop_frame build repr format_exc collapsed ()
                  two_tasks [Poll; Complete 0] [Poll; Complete 0]
                  _ "boom" eq_refl eq_refl _ _ _))) _).
  - apply (bool_decide_unpack _). vm_compute. exact I.
  - apply (bool_decide_unpack _). vm_compute. exact I.
  - apply (bool_decide_unpack _). vm_compute. exact I.
  - reflexivity.
Defined.

(** *** Further properties on the scenarios *)

Lemma submitted_task_settled_witness :
  status_of "dep"
    (dag (run_events build repr format_exc healthy ()
            [Poll; Complete 0; Derived "dep" WaitingExecution; Poll]
            (init Pipeline.chain))) = Some WaitingExecution ∧
  status_of "ok"
    (dag (run_events build repr format_exc healthy ()
            [Poll; Complete 0; Derived "dep" WaitingExecution; Poll]
            (init Pipeline.chain))) = Some Executed.
Proof.
  assert (NoDup (names Pipeline.chain)) as Hnd.
  { apply (bool_decide_unpack _). vm_compute. exact I. }
  split.
  - refine (proj1 (proj1 (submitted_task_settled build repr format_exc
                            healthy () Pipeline.chain
                            [Poll; Complete 0;
                             Derived "dep" WaitingExecution; Poll]
                            1 "dep" Hnd eq_refl _) _)).
    + apply (bool_decide_unpack _). vm_compute. exact I.
    + apply (bool_decide_unpack _). vm_compute. exact I.
  - refine (proj1 (proj2 (submitted_task_settled build repr format_exc
                            healthy () Pipeline.chain
                            [Poll; Complete 0;
                             Derived "dep" WaitingExecution; Poll]
                            0 "ok" Hnd eq_refl _) _)).
    + apply (bool_decide_unpack _). vm_compute. exact I.
    + apply (bool_decide_unpack _). vm_compute. exact I.
Defined.

Lemma unstarted_done_finished_witness :
  "b" ∈ done (run_events build repr format_exc healthy () [Poll]
                (init three_tasks)) ∧
  status_of "b"
    (dag (run_events build repr format_exc healthy () [Poll]
            (init three_tasks))) = Some Aborted.
Proof.
  assert ("b" ∈ done (run_events build repr format_exc healthy () [Poll]
                        (init three_tasks))) as Hin.
  { apply (bool_decide_unpack _). vm_compute. exact I. }
  split; [exact Hin|].
  destruct (unstarted_done_finished build repr format_exc healthy ()
              three_tasks [Poll] "b") as [H|[H|H]];
    [apply (bool_decide_unpack _); vm_compute; exact I
    |reflexivity|exact Hin
    |apply (bool_decide_unpack _); vm_compute; exact I
    |discriminate H|discriminate H|exact H].
Defined.

Lemma normal_stop_witness :
  ∃ σ r,
    run_healthy Pipeline.chain Pipeline.chain_events = Some (σ, r) ∧
    exited σ = Some AllDone ∧
    (∀ n, n ∈ names Pipeline.chain → n ∈ done σ) ∧
    r = ReturnsNone.
Proof.
  eexists _, _. split; [vm_compute; reflexivity|]. split; [reflexivity|].
  assert (NoDup (names Pipeline.chain)) as Hnd.
  { apply (bool_decide_unpack _). vm_compute. exact I. }
  destruct (normal_stop build repr str format_exc healthy ()
              Pipeline.chain Pipeline.chain_events _ _ Hnd eq_refl
              eq_refl) as (Hfull & Hrest).
  specialize (Hfull eq_refl). split; [exact Hfull|].
  destruct (Hrest Hfull) as (_ & _ & [Hr|[[Hr _]|(f & n & _ & Hr & _)]]);
    [exact Hr|discriminate Hr|discriminate Hr].
Defined.

Lemma escaped_exception_hangs_witness :
  (0, "exit") ∈ future_mapping
                  (run_events build repr format_exc healthy ()
                     [Poll; Complete 0; Poll; Poll] (init Pipeline.exits)) ∧
  run_healthy Pipeline.exits [Poll; Complete 0; Poll; Poll] = None.
Proof.
  assert ((0, "exit") ∈ future_mapping
                  (run_events build repr format_exc healthy ()
                     [Poll; Complete 0; Poll; Poll] (init Pipeline.exits)))
    as Hin.
  { apply (bool_decide_unpack _). vm_compute. exact I. }
  split; [exact Hin|].
  apply (escaped_exception_hangs build repr str format_exc healthy ()
           Pipeline.exits [Poll; Complete 0; Poll; Poll] 0 "exit"
           (mkExc BaseExceptionOnly "SystemExit")).
  - apply (bool_decide_unpack _). vm_compute. exact I.
  - apply (bool_decide_unpack _). vm_compute. exact I.
  - reflexivity.
  - intros t. unfold build. repeat case_decide; discriminate.
  - reflexivity.
  - apply (bool_decide_unpack _). vm_compute. exact I.
  - exact Hin.
  - reflexivity.
  - reflexivity.
Defined.

Lemma callbacks_done_at_end_witness :
  ∃ σ r,
    run_collapsed two_tasks [Poll; Poll; Complete 0; Poll] = Some (σ, r) ∧
    1 ∈ delivered σ ∧
    status_of "boom" (dag σ) = Some BrokenProcessPool.
Proof.
  eexists _, _. split; [vm_compute; reflexivity|].
  destruct (callbacks_done_at_end build repr str format_exc collapsed ()
              two_tasks [Poll; Poll; Complete 0; Poll] _ _ eq_refl)
    as [Hall Hstatus].
  split.
  - apply (Hall 1 "boom"). apply (bool_decide_unpack _). vm_compute. exact I.
  - refine (Hstatus _ eq_refl 1 "boom" _).
    + apply (bool_decide_unpack _). vm_compute. exact I.
    + apply (bool_decide_unpack _). vm_compute. exact I.
Defined.

Lemma first_raise_wins_witness :
  ∃ σ r,
    Parallel_call build repr str format_exc Pipeline.breaks_second ()
      Pipeline.fails_first [Poll; Poll; Complete 0; Complete 1; Poll]
    = Some (σ, r) ∧
    status_of "boom" (dag σ) = Some Errored ∧
    r = RaisesOther (mkExc BrokenProcessPoolError "Broken pool ok").
Proof.
  eexists _, _. split; [vm_compute; reflexivity|]. split; [reflexivity|].
  refine (first_raise_wins build repr str format_exc Pipeline.breaks_second
            () Pipeline.fails_first
            [Poll; Poll; Complete 0; Complete 1; Poll] _ _
            [(0, "boom")] 1 "ok" []
            (mkExc BrokenProcessPoolError
               "A process in the process pool was terminated abruptly")
            eq_refl eq_refl _ eq_refl).
  repeat constructor. by eexists.
Defined.

Lemma independent_tasks_run_witness :
  ∃ σ r,
    run_healthy Pipeline.fails_first
      [Poll; Poll; Complete 0; Complete 1; Poll] = Some (σ, r) ∧
    status_of "boom" (dag σ) = Some Errored ∧
    status_of "ok" (dag σ) = Some Executed ∧
    r ≠ ReturnsNone.
Proof.
  destruct (independent_tasks_run build repr str format_exc healthy ()
              Pipeline.fails_first)
    as (σ & r & Hrun & _ & _ & Hstatus & Hr & _).
  - apply (bool_decide_unpack _). vm_compute. exact I.
  - apply (bool_decide_unpack _). vm_compute. exact I.
  - reflexivity.
  - intros t _. unfold build. repeat case_decide; discriminate.
  - intros t e Ht. unfold build. repeat case_decide; try discriminate.
    + intros [= <-]. reflexivity.
    + subst t. apply (bool_decide_pack _) in Ht. vm_compute in Ht.
      destruct Ht.
  - exists σ, r. split; [exact Hrun|]. split_and!.
    + apply (Hstatus (mkTask "boom" WaitingExecution)).
      apply (bool_decide_unpack _). vm_compute. exact I.
    + apply (Hstatus (mkTask "ok" WaitingExecution)).
      apply (bool_decide_unpack _). vm_compute. exact I.
    + intros Hnone.
      destruct (proj1 Hr Hnone (mkTask "boom" WaitingExecution)) as (s & Hs).
      * apply (bool_decide_unpack _). vm_compute. exact I.
      * discriminate Hs.
Defined.

End Examples.

(** ** Pickling the executor *)

Section Pickling.

Implicit Types self state : gmap string PyValue.

(** X13.  Pickling an executor.  On an object without the attribute
    [_logger], [__getstate__] raises [KeyError].  Otherwise the state has
    no [_logger] and every other attribute of the object, and unpickling
    gives back all the attributes with the logger of the module as
    [_logger]: an object whose logger is that logger, as [__init__] makes
    it, comes back unchanged, the counter [_i] included. *)
Theorem pickle_round_trip_restores self :
  (self !! "_logger" = None →
   getstate self = Raises (mkExc OtherException "KeyError") ∧
   pickle_round_trip self = Raises (mkExc OtherException "KeyError")) ∧
  (∀ l, self !! "_logger" = Some l →
        (∃ state, getstate self = Returns state ∧
                  state !! "_logger" = None ∧
                  ∀ k, k ≠ "_logger" → state !! k = self !! k) ∧
        pickle_round_trip self
        = Returns (<["_logger" := getLogger module_name]> self) ∧
        (l = getLogger module_name → pickle_round_trip self = Returns self)).
Proof.
  unfold pickle_round_trip, getstate, setstate. split.
  - by intros ->.
  - intros l Hl. rewrite Hl. split_and!.
    + eexists. split; [done|]. split; [apply lookup_delete_eq|].
      intros k Hk. by apply lookup_delete_ne.
    + by rewrite (right_id_L ∅ (∪)), insert_delete_eq.
    + intros ->. by rewrite (right_id_L ∅ (∪)), insert_delete_eq, insert_id.
Qed.

Lemma pickle_round_trip_restores_witness :
  Pipeline.used !! "_logger" = Some (getLogger module_name) ∧
  pickle_round_trip Pipeline.used = Returns Pipeline.used.
Proof.
  assert (Pipeline.used !! "_logger" = Some (getLogger module_name)) as Hl.
  { vm_compute. reflexivity. }
  split; [exact Hl|].
  destruct (pickle_round_trip_restores Pipeline.used) as [_ Hsome].
  destruct (Hsome _ Hl) as (_ & _ & Hid). exact (Hid eq_refl).
Defined.

End Pickling.
